(** * Pulp's celery-beat scheduler (pulp/server/async/scheduler.py)

    A shallow embedding of the scheduler module: the [FailureWatcher]
    watch table and its two task-event handlers, the [WorkerWatcher]
    worker-event handlers, the [WorkerTimeoutMonitor] sweep and the
    [Scheduler]'s schedule cache.

    Conventions of the embedding.
    - A Python [dict] with string keys is a [gmap string _].
    - [int(time.time())] and naive-UTC datetimes are integers ([Z]), in
      seconds; a handler that reads the clock takes the value read as its
      argument [now].
    - Calls into collaborators that only have an effect (the schedule
      store, the task dispatcher) are recorded, in program order, in a
      list carried by the state.
    - [_logger] calls are write-only and are left out. *)

From stdpp Require Import gmap strings list fin_maps.

Local Open Scope Z_scope.

(** ** Python values that the module inspects for truth *)

(** [if s:] on a [basestring] or [None]. *)
Definition truth_of_str (v : option string) : bool :=
  match v with
  | Some s => negb (String.eqb s "")
  | None => false
  end.

(** [dict.pop(key, default)]: never raises, the key is gone afterwards.
    The stored values are typed, the default need not be one of them
    ([None], a tuple of [None]s), so the result is read through [found]. *)
Definition dict_pop {V R : Type} (key : string) (found : V → R) (default : R)
    (d : gmap string V) : R * gmap string V :=
  (from_option found default (d !! key), delete key d).

(** ** FailureWatcher *)

Module FailureWatcher.

(** [WatchedTask = namedtuple('WatchedTask', ['timestamp', 'schedule_id',
    'has_failure'])] *)
Record WatchedTask : Type := mkWatchedTask {
  timestamp : Z;
  schedule_id : string;
  has_failure : bool
}.

(** A 3-tuple as [pop] slices it: a watch, or the all-[None] default. *)
Definition row : Type := option Z * option string * option bool.

Definition as_row (watch : WatchedTask) : row :=
  (Some (timestamp watch), Some (schedule_id watch), Some (has_failure watch)).

Definition _default_pop : row := (None, None, None).

(** [ttl = 60*60*4] *)
Definition ttl : Z := 60 * 60 * 4.

(** The calls the handlers make into [pulp.server.managers.schedule.utils]. *)
Inductive StoreCall : Type :=
| reset_failure_count (schedule_id : string)
| increment_failure_count (schedule_id : string).

(** What a finished task returned: [AsyncResult(event_id, app=app).result]
    is either another [AsyncResult] (with its [id]) or any other value. *)
Inductive TaskResult : Type :=
| AsyncResult (id : string)
| Value.

(** The task events carry the task id under ['uuid']. *)
Record TaskEvent : Type := mkTaskEvent { uuid : string }.

(** The watcher object together with the store calls made so far. *)
Record state : Type := mkState {
  _watches : gmap string WatchedTask;
  store_calls : list StoreCall
}.

(** [__init__] *)
Definition init : state := {| _watches := ∅; store_calls := [] |}.

(** [trim]: [items()] is a snapshot list (Python 2); the generator keeps
    the ids whose watch is older than [oldest_allowed]; each is popped. *)
Definition stale_ids (now : Z) (watches : gmap string WatchedTask) : list string :=
  let oldest_allowed := now - ttl in
  (filter (λ item, timestamp item.2 < oldest_allowed) (map_to_list watches)).*1.

Definition trim_watches (now : Z) (watches : gmap string WatchedTask)
    : gmap string WatchedTask :=
  foldl (λ d task_id, (dict_pop task_id Some None d).2)
        watches (stale_ids now watches).

Definition trim (now : Z) (self : state) : state :=
  {| _watches := trim_watches now (_watches self);
     store_calls := store_calls self |}.

(** [add]: the entry is stamped with the clock; an existing entry for the
    id is overwritten. *)
Definition add_watch (now : Z) (task_id schedule_id : string) (has_failure : bool)
    (watches : gmap string WatchedTask) : gmap string WatchedTask :=
  <[task_id := mkWatchedTask now schedule_id has_failure]> watches.

Definition add (now : Z) (task_id schedule_id : string) (has_failure : bool)
    (self : state) : state :=
  {| _watches := add_watch now task_id schedule_id has_failure (_watches self);
     store_calls := store_calls self |}.

(** [pop]: [self._watches.pop(task_id, self._default_pop)[1:]] *)
Definition pop_watch (task_id : string) (watches : gmap string WatchedTask)
    : (option string * option bool) * gmap string WatchedTask :=
  let '((_, schedule_id, has_failure), watches') :=
    dict_pop task_id as_row _default_pop watches in
  ((schedule_id, has_failure), watches').

Definition pop (task_id : string) (self : state)
    : (option string * option bool) * state :=
  let '(r, watches') := pop_watch task_id (_watches self) in
  (r, {| _watches := watches'; store_calls := store_calls self |}).

(** A call into the schedule store. *)
Definition call_store (c : StoreCall) (self : state) : state :=
  {| _watches := _watches self; store_calls := store_calls self ++ [c] |}.

(** [handle_succeeded_task].  [results] stands for the result backend that
    [AsyncResult(event_id, app=app).result] reads; [now] is the clock read
    by the [add] of the chained task. *)
Definition handle_succeeded_task (now : Z) (results : string → TaskResult)
    (event : TaskEvent) (self : state) : state :=
  let event_id := uuid event in
  let '((schedule_id, has_failure), self) := pop event_id self in
  if truth_of_str schedule_id then
    match schedule_id, has_failure with
    | Some schedule_id, Some has_failure =>
        match results event_id with
        | AsyncResult return_value_id =>
            add now return_value_id schedule_id has_failure self
        | Value =>
            if has_failure
            then call_store (reset_failure_count schedule_id) self
            else self
        end
    | _, _ => self
    end
  else self.

(** [handle_failed_task] *)
Definition handle_failed_task (event : TaskEvent) (self : state) : state :=
  let '((schedule_id, has_failure), self) := pop (uuid event) self in
  if truth_of_str schedule_id then
    match schedule_id with
    | Some schedule_id => call_store (increment_failure_count schedule_id) self
    | None => self
    end
  else self.

(** [__len__] *)
Definition __len__ (self : state) : nat := size (_watches self).

End FailureWatcher.

(** ** The two threads that share the watch table

    [FailureWatcher] holds no lock object: each method works on
    [self._watches] directly.  The beat thread calls [add] (from
    [Scheduler.apply_async]) and [trim] (from [Scheduler.tick]); the
    event-monitor thread calls [pop] and [add] (from the two handlers).
    The interpreter switches threads between bytecodes, so one dict method
    ([items], [pop], [__setitem__], [__len__]) is taken as one indivisible
    step, which is the coarsest grain the runtime offers. *)

Module Threads.

Import FailureWatcher.

(** A method call in progress on one thread. *)
Inductive call : Type :=
| in_trim (now : Z)                    (* [trim] entered, [items()] not yet taken *)
| in_trim_loop (task_ids : list string) (* inside the [for], ids still to pop *)
| in_add (now : Z) (task_id schedule_id : string) (has_failure : bool)
| in_pop (task_id : string)
| in_len
| returned.

(** One step of a call on the shared table. *)
Definition step (c : call) (watches : gmap string WatchedTask)
    : call * gmap string WatchedTask :=
  match c with
  | in_trim now => (in_trim_loop (stale_ids now watches), watches)
  | in_trim_loop [] => (returned, watches)
  | in_trim_loop (task_id :: task_ids) =>
      (in_trim_loop task_ids, (dict_pop task_id Some None watches).2)
  | in_add now task_id schedule_id has_failure =>
      (returned, add_watch now task_id schedule_id has_failure watches)
  | in_pop task_id => (returned, (pop_watch task_id watches).2)
  | in_len => (returned, watches)
  | returned => (returned, watches)
  end.

(** The call run to its end with no other thread stepping. *)
Definition finish (c : call) (watches : gmap string WatchedTask)
    : gmap string WatchedTask :=
  match c with
  | in_trim now => trim_watches now watches
  | in_trim_loop task_ids =>
      foldl (λ d task_id, (dict_pop task_id Some None d).2) watches task_ids
  | in_add now task_id schedule_id has_failure =>
      add_watch now task_id schedule_id has_failure watches
  | in_pop task_id => (pop_watch task_id watches).2
  | in_len => watches
  | returned => watches
  end.

(** A call is strictly inside its method when it has taken a step and has
    not returned; only [trim] has such states. *)
Definition inside (c : call) : bool :=
  match c with
  | in_trim_loop _ => true
  | _ => false
  end.

(** Which thread the runtime lets run next. *)
Inductive thread : Type := beat | event_monitor.

(** The beat thread's call [b] and the event-monitor thread's call [e] run
    under a schedule; when the schedule ends, both are run to their end. *)
Fixpoint interleave (schedule : list thread) (b e : call)
    (watches : gmap string WatchedTask) : gmap string WatchedTask :=
  match schedule with
  | [] => finish e (finish b watches)
  | beat :: schedule =>
      let '(b, watches) := step b watches in interleave schedule b e watches
  | event_monitor :: schedule =>
      let '(e, watches) := step e watches in interleave schedule b e watches
  end.

(** The calls' states after a schedule prefix. *)
Fixpoint configuration (schedule : list thread) (b e : call)
    (watches : gmap string WatchedTask) : call * call :=
  match schedule with
  | [] => (b, e)
  | beat :: schedule =>
      let '(b, watches) := step b watches in configuration schedule b e watches
  | event_monitor :: schedule =>
      let '(e, watches) := step e watches in configuration schedule b e watches
  end.

End Threads.

(** ** The worker registry and the task dispatcher *)

Module Resources.

(** Modelled from the spec: [RESOURCE_MANAGER_QUEUE], imported from
    [pulp.server.async.celery_instance], is not among the sources; the
    configuration surface gives it as ["resource_manager"]. *)
Definition RESOURCE_MANAGER_QUEUE : string := "resource_manager".

(** Modelled from the spec: [AvailableQueue], from
    [pulp.server.db.model.resources], is not among the sources.  A row has
    a unique [name] (its [_id]), a [last_heartbeat] and a count of
    reservations, which a row built from a name and a heartbeat starts at
    zero. *)
Record AvailableQueue : Type := mkAvailableQueue {
  name : string;
  last_heartbeat : Z;
  num_reservations : Z
}.

Definition AvailableQueue_new (name : string) (last_heartbeat : Z) : AvailableQueue :=
  mkAvailableQueue name last_heartbeat 0.

(** The collection, keyed by [_id]; the document holds the other fields. *)
Record document : Type := mkDocument {
  doc_last_heartbeat : Z;
  doc_num_reservations : Z
}.

Definition from_document (item : string * document) : AvailableQueue :=
  mkAvailableQueue item.1 (doc_last_heartbeat item.2) (doc_num_reservations item.2).

Definition to_document (q : AvailableQueue) : document :=
  mkDocument (last_heartbeat q) (num_reservations q).

(** The two [Criteria] the module builds. *)
Inductive Criteria : Type :=
| filter_id (worker_name : string)              (* [{'_id': worker_name}] *)
| filter_last_heartbeat_lt (oldest : Z).        (* [{'last_heartbeat': {'$lt': oldest}}] *)

(** A submission to the dispatcher: [task.apply_async(args=..., queue=...)]. *)
Inductive Task : Type := _delete_queue.

Record Submission : Type := mkSubmission {
  task : Task;
  args : list string;
  queue : string
}.

#[global] Instance Task_eq_dec : EqDecision Task.
Proof. solve_decision. Defined.

#[global] Instance Submission_eq_dec : EqDecision Submission.
Proof. solve_decision. Defined.

(** What the worker handlers and the sweep act on. *)
Record world : Type := mkWorld {
  available_queues : gmap string document;
  submissions : list Submission
}.

(** Modelled from the spec: [resources.filter_available_queues], from
    [pulp.server.managers.resources], is not among the sources; the
    registry's [filter(predicate)] returns the rows that satisfy
    [{_id == name}] or [{last_heartbeat < t}]. *)
Definition filter_available_queues (criteria : Criteria)
    (collection : gmap string document) : list AvailableQueue :=
  match criteria with
  | filter_id worker_name =>
      from_document <$> filter (λ item, item.1 = worker_name) (map_to_list collection)
  | filter_last_heartbeat_lt oldest =>
      from_document <$>
        filter (λ item, doc_last_heartbeat item.2 < oldest) (map_to_list collection)
  end.

(** [queue.save()]: upsert of the row under its name. *)
Definition save (q : AvailableQueue) (w : world) : world :=
  {| available_queues := <[name q := to_document q]> (available_queues w);
     submissions := submissions w |}.

(** [task.apply_async(args=args, queue=queue)] *)
Definition apply_async (task : Task) (args : list string) (queue : string)
    (w : world) : world :=
  {| available_queues := available_queues w;
     submissions := submissions w ++ [mkSubmission task args queue] |}.

End Resources.

(** ** WorkerWatcher *)

Module WorkerWatcher.

Import Resources.

Definition RESOURCE_MANAGER_PREFIX : string := "resource_manager@".

(** A celery worker event, with the three keys the handlers read. *)
Record Event : Type := mkEvent {
  timestamp : Z;
  type : string;
  hostname : string
}.

Record EventInfo : Type := mkEventInfo {
  info_timestamp : Z;
  info_type : string;
  worker_name : string
}.

(** [re.match('^%s' % RESOURCE_MANAGER_PREFIX, event['hostname'])]: the
    prefix has no regular-expression operator in it, so the match is a
    plain prefix test. *)
Definition _is_resource_manager (event : Event) : bool :=
  if String.prefix RESOURCE_MANAGER_PREFIX (hostname event) then true else false.

(** [_parse_and_log_event]: [utcfromtimestamp] keeps the instant, for the
    timestamps it converts (see [converts] below); for any other it raises
    [ValueError], and the handler that called it ends there, before it has
    read or changed anything. *)
Definition _parse_and_log_event (event : Event) : EventInfo :=
  {| info_timestamp := timestamp event;
     info_type := type event;
     worker_name := hostname event |}.

(** [handle_worker_heartbeat] *)
Definition handle_worker_heartbeat (event : Event) (w : world) : world :=
  let event_info := _parse_and_log_event event in
  if _is_resource_manager event then w
  else
    let find_worker_criteria := filter_id (worker_name event_info) in
    let find_worker_list :=
      filter_available_queues find_worker_criteria (available_queues w) in
    match find_worker_list with
    | existing_worker :: _ =>
        save (mkAvailableQueue (name existing_worker) (info_timestamp event_info)
                (num_reservations existing_worker)) w
    | [] =>
        let new_available_queue :=
          AvailableQueue_new (worker_name event_info) (info_timestamp event_info) in
        save new_available_queue w
    end.

(** [handle_worker_offline] *)
Definition handle_worker_offline (event : Event) (w : world) : world :=
  let event_info := _parse_and_log_event event in
  if _is_resource_manager event then w
  else apply_async _delete_queue [worker_name event_info] RESOURCE_MANAGER_QUEUE w.

(** The timestamps that [datetime.utcfromtimestamp] converts on every
    platform: it goes through the C library's [gmtime], which everywhere
    covers the years 1970 to 2038. *)
Definition converts (timestamp : Z) : Prop := 0 ≤ timestamp < 2147483648.

End WorkerWatcher.

(** ** WorkerTimeoutMonitor *)

Module WorkerTimeoutMonitor.

Import Resources.

Definition WORKER_TIMEOUT_SECONDS : Z := 300.

Definition FREQUENCY : Z := 60.

(** [check_workers]; [utcnow] is the value of [datetime.utcnow()]. *)
Definition check_workers (utcnow : Z) (w : world) : world :=
  let oldest_heartbeat_time := utcnow - WORKER_TIMEOUT_SECONDS in
  let worker_criteria := filter_last_heartbeat_lt oldest_heartbeat_time in
  let worker_list := filter_available_queues worker_criteria (available_queues w) in
  foldl (λ w worker, apply_async _delete_queue [name worker] RESOURCE_MANAGER_QUEUE w)
        w worker_list.

(** [run]: [sleep], then [check_workers], for ever; an exception raised by
    [check_workers] is logged and the loop goes on.  These are its first
    iterations, one for each reading of [datetime.utcnow()] in [clock]. *)
Definition run (clock : list Z) (w : world) : world :=
  foldl (λ w utcnow, check_workers utcnow w) w clock.

End WorkerTimeoutMonitor.

(** ** Scheduler *)

Module Scheduler.

(** Modelled from the spec: [ScheduledCall], from
    [pulp.server.db.model.dispatch], is not among the sources.  These are
    the attributes the scheduler reads.  [remaining_runs] and
    [failure_threshold] are counts or [None], [consecutive_failures] is a
    count, and [last_updated] is a timestamp, a number of seconds since
    the epoch on which the module does no arithmetic: natural numbers
    all. *)
Record ScheduledCall : Type := mkScheduledCall {
  id : string;
  remaining_runs : option N;
  last_updated : N;
  failure_threshold : option N;
  consecutive_failures : N
}.

(** The values of [_schedule]: a [beat.ScheduleEntry] built from the
    keyword arguments of a configured entry, or the entry that
    [call.as_schedule_entry()] derives, which carries its call
    ([_scheduled_call]) and is named by the call's id. *)
Inductive Entry : Type :=
| beat_ScheduleEntry (kwargs : gmap string string)
| ScheduleEntry (_scheduled_call : ScheduledCall).

Definition as_schedule_entry (call : ScheduledCall) : Entry := ScheduleEntry call.

(** The schedule store as [pulp.server.managers.schedule.utils] shows it:
    the cursor of [get_enabled()] and, for each timestamp, the cursor of
    [get_updated_since(timestamp)].  Both helpers are outside the sources
    and are taken as given. *)
Record Store : Type := mkStore {
  get_enabled : list ScheduledCall;
  get_updated_since : N → list ScheduledCall
}.

(** The queries sent to the store. *)
Inductive Query : Type :=
| load_enabled                     (* iteration over [get_enabled()] *)
| count_enabled                    (* [get_enabled().count()] *)
| count_updated_since (timestamp : N).

#[global] Instance Query_eq_dec : EqDecision Query.
Proof. solve_decision. Defined.

(** The scheduler's own fields, and the store queries made so far.
    [__init__] does not set [_most_recent_timestamp]. *)
Record state : Type := mkState {
  _schedule : option (gmap string Entry);
  _loaded_from_db_count : Z;
  _most_recent_timestamp : option N;
  queries : list Query
}.

Definition max_interval : Z := 90.

(** [__init__] *)
Definition init : state :=
  {| _schedule := None;
     _loaded_from_db_count := 0;
     _most_recent_timestamp := None;
     queries := [] |}.

(** [call.remaining_runs == 0]: [None == 0] is false. *)
Definition remaining_runs_is_0 (call : ScheduledCall) : bool :=
  match remaining_runs call with
  | Some n => (n =? 0)%N
  | None => false
  end.

(** [max(l)] of a list; [None] stands for the [ValueError] on an empty list. *)
Definition max (l : list N) : option N :=
  match l with
  | [] => None
  | x :: l => Some (foldl N.max x l)
  end.

(** A call with runs left: [remaining_runs] is not [0]. *)
Definition runs_left (call : ScheduledCall) : Prop := remaining_runs call ≠ Some 0%N.

#[global] Instance runs_left_dec (call : ScheduledCall) : Decision (runs_left call).
Proof. unfold runs_left. apply _. Defined.

(** The locals of the loop over the store's calls. *)
Record loading : Type := mkLoading {
  schedule_so_far : gmap string Entry;
  update_timestamps : list N;
  ignored_db_count : Z;
  loaded_so_far : Z
}.

(** The body of the [for call in ...] loop of [setup_schedule]. *)
Definition load_call (acc : loading) (call : ScheduledCall) : loading :=
  if remaining_runs_is_0 call then
    {| schedule_so_far := schedule_so_far acc;
       update_timestamps := update_timestamps acc;
       ignored_db_count := ignored_db_count acc + 1;
       loaded_so_far := loaded_so_far acc |}
  else
    {| schedule_so_far := <[id call := as_schedule_entry call]> (schedule_so_far acc);
       update_timestamps := update_timestamps acc ++ [last_updated call];
       ignored_db_count := ignored_db_count acc;
       loaded_so_far := loaded_so_far acc + 1 |}.

(** The entries of [CELERYBEAT_SCHEDULE]:
    for each item, a [beat.ScheduleEntry] whose keyword arguments are
    [dict(value, name=key)]. *)
Definition from_app (conf : gmap string (gmap string string)) : gmap string Entry :=
  map_fold (λ key value schedule,
              <[key := beat_ScheduleEntry (<["name" := key]> value)]> schedule)
           ∅ conf.

(** [setup_schedule]; [conf] is [self.app.conf.CELERYBEAT_SCHEDULE]. *)
Definition setup_schedule (conf : gmap string (gmap string string))
    (store : Store) (self : state) : state :=
  let acc :=
    foldl load_call
      {| schedule_so_far := from_app conf;
         update_timestamps := [0%N];
         ignored_db_count := 0;
         loaded_so_far := 0 |}
      (get_enabled store) in
  {| _schedule := Some (schedule_so_far acc);
     _loaded_from_db_count := loaded_so_far acc;
     _most_recent_timestamp := max (update_timestamps acc);
     queries := queries self ++ [load_enabled] |}.

Definition ask (q : Query) (self : state) : state :=
  {| _schedule := _schedule self;
     _loaded_from_db_count := _loaded_from_db_count self;
     _most_recent_timestamp := _most_recent_timestamp self;
     queries := queries self ++ [q] |}.

(** [schedule_changed]; the result [None] stands for the [AttributeError]
    raised when [_most_recent_timestamp] is read before it was ever set. *)
Definition schedule_changed (store : Store) (self : state) : option bool * state :=
  let self := ask count_enabled self in
  if bool_decide (Z.of_nat (length (get_enabled store)) ≠ _loaded_from_db_count self)
  then (Some true, self)
  else
    match _most_recent_timestamp self with
    | None => (None, self)
    | Some timestamp =>
        let self := ask (count_updated_since timestamp) self in
        if bool_decide (Z.of_nat (length (get_updated_since store timestamp)) > 0)
        then (Some true, self)
        else (Some false, self)
    end.

(** The [schedule] property; the result [None] stands for an exception. *)
Definition schedule (conf : gmap string (gmap string string)) (store : Store)
    (self : state) : option (gmap string Entry) * state :=
  match _schedule self with
  | None =>
      let self := setup_schedule conf store self in (_schedule self, self)
  | Some _ =>
      match schedule_changed store self with
      | (Some true, self) =>
          let self := setup_schedule conf store self in (_schedule self, self)
      | (Some false, self) => (_schedule self, self)
      | (None, self) => (None, self)
      end
  end.

(** [n] reads of the [schedule] property in a row, the store unchanged. *)
Fixpoint read_schedule (n : nat) (conf : gmap string (gmap string string))
    (store : Store) (self : state) : state :=
  match n with
  | O => self
  | S n => read_schedule n conf store (schedule conf store self).2
  end.

(** [if n:] on a count or [None]. *)
Definition truth_of_count (v : option N) : bool :=
  match v with
  | Some n => negb (n =? 0)%N
  | None => false
  end.

(** [apply_async], after the superclass has queued the entry's task and
    returned the result whose id is [result_id]: what it does to the
    failure watcher.  Only a [ScheduleEntry] passes the [isinstance] test;
    its [name] is its call's id. *)
Definition apply_async (now : Z) (entry : Entry) (result_id : string)
    (_failure_watcher : FailureWatcher.state) : FailureWatcher.state :=
  match entry with
  | ScheduleEntry _scheduled_call =>
      if truth_of_count (failure_threshold _scheduled_call) then
        let has_failure := truth_of_count (Some (consecutive_failures _scheduled_call)) in
        FailureWatcher.add now result_id (id _scheduled_call) has_failure _failure_watcher
      else _failure_watcher
  | beat_ScheduleEntry _ => _failure_watcher
  end.

(** How many times the store's enabled calls were loaded. *)
Definition loads (self : state) : nat :=
  length (filter (λ q, q = load_enabled) (queries self)).

End Scheduler.

(** ** The states of the failure watcher

    The watcher is built empty by [Scheduler.__init__] and is then changed
    only by [Scheduler.apply_async] (which has the one call of [add]
    outside the class), by [Scheduler.tick] (which calls [trim]) and by
    the two event handlers; [add] and [pop] have no other caller. *)

Module Watching.

Import FailureWatcher.

(** An entry derived from a stored call is named by the call's id, which
    the store assigns and which is not the empty string. *)
Definition named (entry : Scheduler.Entry) : Prop :=
  match entry with
  | Scheduler.ScheduleEntry _scheduled_call => Scheduler.id _scheduled_call ≠ ""
  | Scheduler.beat_ScheduleEntry _ => True
  end.

Inductive reachable : state → Prop :=
| reachable_init : reachable init
| reachable_apply_async now entry result_id self :
    reachable self → named entry →
    reachable (Scheduler.apply_async now entry result_id self)
| reachable_trim now self :
    reachable self → reachable (trim now self)
| reachable_succeeded now results event self :
    reachable self → reachable (handle_succeeded_task now results event self)
| reachable_failed event self :
    reachable self → reachable (handle_failed_task event self).

End Watching.

(** * Properties *)

(** ** The watch table *)

Section watch_table.

Import FailureWatcher.

Implicit Types (watches d : gmap string WatchedTask) (task_id k : string).
Implicit Types (self : state) (watch : WatchedTask).

Lemma dict_pop_table {V R : Type} (key : string) (found : V → R) (default : R)
    (m : gmap string V) :
  (dict_pop key found default m).2 = delete key m.
Proof. reflexivity. Qed.

Lemma foldl_pop_lookup (task_ids : list string) d k :
  foldl (λ d task_id, (dict_pop task_id Some None d).2) d task_ids !! k
  = if decide (k ∈ task_ids) then None else d !! k.
Proof.
  revert d. induction task_ids as [|t task_ids IH]; intros d.
  - destruct (decide (k ∈ [])) as [Hin|]; [by apply elem_of_nil in Hin | done].
  - cbn [foldl]. rewrite IH, dict_pop_table.
    destruct (decide (k ∈ task_ids)) as [Hin|Hnin];
      destruct (decide (k ∈ t :: task_ids)) as [Hin'|Hnin']; try done.
    + exfalso. apply Hnin'. by right.
    + apply elem_of_cons in Hin' as [->|?]; [apply lookup_delete_eq | done].
    + apply lookup_delete_ne. intros ->. apply Hnin'. by left.
Qed.

Lemma elem_of_stale_ids now d k :
  k ∈ stale_ids now d ↔ ∃ watch, d !! k = Some watch ∧ timestamp watch < now - ttl.
Proof.
  unfold stale_ids. rewrite list_elem_of_fmap. split.
  - intros [[k' watch] [-> [Hold Hin]%list_elem_of_filter]].
    apply elem_of_map_to_list in Hin. by exists watch.
  - intros (watch & Hk & Hold). exists (k, watch). split; [done|].
    apply list_elem_of_filter. split; [done|]. by apply elem_of_map_to_list.
Qed.

Lemma trim_watches_lookup now d k :
  trim_watches now d !! k
  = match d !! k with
    | Some watch => if decide (timestamp watch < now - ttl) then None else Some watch
    | None => None
    end.
Proof.
  unfold trim_watches. rewrite foldl_pop_lookup.
  destruct (decide (k ∈ stale_ids now d)) as [Hin|Hnin].
  - apply elem_of_stale_ids in Hin as (watch & -> & Hold). by rewrite decide_True.
  - destruct (d !! k) as [watch|] eqn:Hk; [|done].
    destruct (decide (timestamp watch < now - ttl)) as [Hold|]; [|done].
    exfalso. apply Hnin, elem_of_stale_ids. eauto.
Qed.

Lemma pop_watch_eq task_id d :
  pop_watch task_id d
  = (match d !! task_id with
     | Some watch => (Some (schedule_id watch), Some (has_failure watch))
     | None => (None, None)
     end, delete task_id d).
Proof. unfold pop_watch, dict_pop. by destruct (d !! task_id). Qed.

Lemma pop_eq task_id self :
  pop task_id self
  = (match _watches self !! task_id with
     | Some watch => (Some (schedule_id watch), Some (has_failure watch))
     | None => (None, None)
     end,
     {| _watches := delete task_id (_watches self);
        store_calls := store_calls self |}).
Proof. unfold pop. by rewrite pop_watch_eq. Qed.

(** C4.  [trim()] at time [now] (the clock as [int(time.time())] reads it)
    keeps an entry exactly when its timestamp is at least [now - 14400]:
    every entry left satisfies the bound, and every entry that satisfies
    it is left, unchanged; nothing is added and the store is not called. *)
Theorem trim_keeps_exactly_the_recent now self :
  (∀ task_id watch,
     _watches (trim now self) !! task_id = Some watch
     ↔ _watches self !! task_id = Some watch ∧ now - 14400 ≤ timestamp watch)
  ∧ store_calls (trim now self) = store_calls self.
Proof.
  split; [|done]. intros task_id watch. simpl.
  rewrite trim_watches_lookup. change ttl with 14400.
  destruct (_watches self !! task_id) as [w|]; [|split; [done | by intros [? _]]].
  destruct (decide (timestamp w < now - 14400)); split.
  - done.
  - intros [[= ->] ?]. lia.
  - intros [= ->]. split; [done | lia].
  - by intros [? _].
Qed.

(** C5.  [pop] never fails: for an id that is not in the table it returns
    the pair of [None]s; for an id that is, its schedule id and flag; in
    both cases the id is absent afterwards, so a second [pop] of the same
    id returns the pair of [None]s.  The store is not called. *)
Theorem pop_total_and_removing task_id self :
  (_watches self !! task_id = None → (pop task_id self).1 = (None, None))
  ∧ (∀ watch, _watches self !! task_id = Some watch →
       (pop task_id self).1 = (Some (schedule_id watch), Some (has_failure watch)))
  ∧ _watches (pop task_id self).2 !! task_id = None
  ∧ (pop task_id (pop task_id self).2).1 = (None, None)
  ∧ (∀ k, k ≠ task_id → _watches (pop task_id self).2 !! k = _watches self !! k)
  ∧ store_calls (pop task_id self).2 = store_calls self.
Proof.
  rewrite !pop_eq. simpl. rewrite lookup_delete_eq.
  repeat split.
  - by intros ->.
  - by intros watch ->.
  - intros k Hk. by apply lookup_delete_ne.
Qed.

Lemma pop_total_and_removing_witness :
  (FailureWatcher.pop "T" FailureWatcher.init).1 = (None, None)
  ∧ (FailureWatcher.pop "T" (FailureWatcher.add 7 "T" "S" true FailureWatcher.init)).1
    = (Some "S", Some true).
Proof.
  split.
  - exact (proj1 (pop_total_and_removing "T" FailureWatcher.init) eq_refl).
  - exact (proj1 (proj2 (pop_total_and_removing "T"
                           (FailureWatcher.add 7 "T" "S" true FailureWatcher.init)))
             (mkWatchedTask 7 "S" true) eq_refl).
Defined.

End watch_table.

(** ** The task-event handlers *)

Section task_handlers.

Import FailureWatcher.

Implicit Types (self : state) (watch : WatchedTask) (event : TaskEvent).

(** The handlers test the popped schedule id for truth: [None] (an
    untracked task) and the empty string are both false. *)
Lemma truth_of_str_Some (s : string) :
  truth_of_str (Some s) = negb (String.eqb s "").
Proof. reflexivity. Qed.

Lemma truth_of_str_nonempty (s : string) : s ≠ "" → truth_of_str (Some s) = true.
Proof.
  intros Hs. simpl. apply negb_true_iff, String.eqb_neq. exact Hs.
Qed.

Lemma handle_succeeded_task_untracked now results event self :
  _watches self !! uuid event = None →
  handle_succeeded_task now results event self
  = {| _watches := delete (uuid event) (_watches self);
       store_calls := store_calls self |}.
Proof.
  intros Hk. unfold handle_succeeded_task. rewrite pop_eq, Hk. reflexivity.
Qed.

Lemma state_eta self :
  {| _watches := _watches self; store_calls := store_calls self |} = self.
Proof. by destruct self. Qed.

Lemma handle_failed_task_eq event self :
  handle_failed_task event self
  = {| _watches := delete (uuid event) (_watches self);
       store_calls :=
         store_calls self
         ++ match _watches self !! uuid event with
            | Some watch =>
                if String.eqb (schedule_id watch) "" then []
                else [increment_failure_count (schedule_id watch)]
            | None => []
            end |}.
Proof.
  unfold handle_failed_task. rewrite pop_eq.
  destruct (_watches self !! uuid event) as [watch|].
  - rewrite truth_of_str_Some.
    destruct (String.eqb (schedule_id watch) ""); simpl; [by rewrite app_nil_r | done].
  - simpl. by rewrite app_nil_r.
Qed.

Lemma handle_succeeded_task_eq now results event self :
  handle_succeeded_task now results event self
  = match _watches self !! uuid event with
    | Some watch =>
        if String.eqb (schedule_id watch) "" then
          {| _watches := delete (uuid event) (_watches self);
             store_calls := store_calls self |}
        else
          match results (uuid event) with
          | AsyncResult child =>
              {| _watches :=
                   <[child := mkWatchedTask now (schedule_id watch) (has_failure watch)]>
                     (delete (uuid event) (_watches self));
                 store_calls := store_calls self |}
          | Value =>
              {| _watches := delete (uuid event) (_watches self);
                 store_calls :=
                   store_calls self
                   ++ (if has_failure watch
                       then [reset_failure_count (schedule_id watch)] else []) |}
          end
    | None => self
    end.
Proof.
  unfold handle_succeeded_task. rewrite pop_eq.
  destruct (_watches self !! uuid event) as [watch|] eqn:Hk.
  - rewrite truth_of_str_Some.
    destruct (String.eqb (schedule_id watch) ""); simpl; [done|].
    destruct (results (uuid event)); [done|].
    destruct (has_failure watch); simpl; [done | by rewrite app_nil_r].
  - simpl. rewrite delete_id by done. apply state_eta.
Qed.

(** Every watch of a reachable watcher carries the id of a stored call:
    [add] is only reached with the name of a dispatched entry or with the
    schedule id of a watch just popped. *)
Lemma reachable_schedule_ids self k watch :
  Watching.reachable self → _watches self !! k = Some watch → schedule_id watch ≠ "".
Proof.
  intros Hreach. revert k watch.
  induction Hreach as [|now entry result_id self _ IH Hnamed|now self _ IH
                       |now results event self _ IH|event self _ IH];
    intros k watch Hk.
  - cbn [init _watches] in Hk. by rewrite lookup_empty in Hk.
  - destruct entry as [kwargs|call]; [by eapply IH|].
    unfold Scheduler.apply_async in Hk.
    destruct (Scheduler.truth_of_count (Scheduler.failure_threshold call));
      [|by eapply IH].
    cbn [add _watches] in Hk. unfold add_watch in Hk.
    destruct (decide (result_id = k)) as [->|Hne].
    + rewrite lookup_insert_eq in Hk. injection Hk as <-. exact Hnamed.
    + rewrite lookup_insert_ne in Hk by done. by eapply IH.
  - cbn [trim _watches] in Hk. rewrite trim_watches_lookup in Hk.
    destruct (_watches self !! k) as [w|] eqn:Hw; [|done].
    case_decide; [done|]. injection Hk as <-. by eapply IH.
  - rewrite handle_succeeded_task_eq in Hk.
    destruct (_watches self !! uuid event) as [parent|] eqn:Hp; [|by eapply IH].
    assert (∀ w, delete (uuid event) (_watches self) !! k = Some w →
                 schedule_id w ≠ "") as Hdel.
    { intros w Hw. apply lookup_delete_Some in Hw as [_ Hw]. by eapply IH. }
    destruct (String.eqb (schedule_id parent) ""); cbn [_watches] in Hk;
      [by apply Hdel|].
    destruct (results (uuid event)) as [child|]; cbn [_watches] in Hk;
      [|by apply Hdel].
    destruct (decide (child = k)) as [->|Hne].
    + rewrite lookup_insert_eq in Hk. injection Hk as <-. cbn [schedule_id].
      by eapply IH.
    + rewrite lookup_insert_ne in Hk by done. by apply Hdel.
  - rewrite handle_failed_task_eq in Hk. cbn [_watches] in Hk.
    apply lookup_delete_Some in Hk as [_ Hk]. by eapply IH.
Qed.

Lemma reachable_eqb self k watch :
  Watching.reachable self → _watches self !! k = Some watch →
  String.eqb (schedule_id watch) "" = false.
Proof. intros Hreach Hk. apply String.eqb_neq. by eapply reachable_schedule_ids. Qed.

(** C1.  For a task tracked in the failure watcher, a task-succeeded event
    with its uuid, the task's result not being a task reference, removes
    the watch and calls [reset_failure_count(schedule_id)] exactly once
    when the watch's flag is true; when the flag is false no store call is
    made.  The watcher is any state the scheduler and the handlers can
    bring it to. *)
Theorem handle_succeeded_task_resets_on_transition now results event self watch :
  Watching.reachable self →
  _watches self !! uuid event = Some watch →
  results (uuid event) = Value →
  let self' := handle_succeeded_task now results event self in
  _watches self' = delete (uuid event) (_watches self)
  ∧ _watches self' !! uuid event = None
  ∧ (has_failure watch = true →
       store_calls self' = store_calls self ++ [reset_failure_count (schedule_id watch)])
  ∧ (has_failure watch = false → store_calls self' = store_calls self).
Proof.
  intros Hreach Hk Hres self'. subst self'.
  rewrite handle_succeeded_task_eq, Hk, (reachable_eqb _ _ _ Hreach Hk), Hres.
  cbn [_watches store_calls].
  split; [done|]. split; [apply lookup_delete_eq|].
  split; intros ->; [done | by rewrite app_nil_r].
Qed.

Lemma handle_succeeded_task_resets_on_transition_witness :
  let call := Scheduler.mkScheduledCall "S" None 5%N (Some 3%N) 1%N in
  let self :=
    Scheduler.apply_async 100 (Scheduler.as_schedule_entry call) "T" FailureWatcher.init in
  let self' :=
    FailureWatcher.handle_succeeded_task 200 (λ _, FailureWatcher.Value)
      (FailureWatcher.mkTaskEvent "T") self in
  FailureWatcher._watches self' = ∅
  ∧ FailureWatcher.store_calls self' = [FailureWatcher.reset_failure_count "S"].
Proof.
  intros call self self'.
  assert (Watching.reachable self) as Hreach.
  { apply Watching.reachable_apply_async; [apply Watching.reachable_init|].
    simpl. discriminate. }
  pose proof (handle_succeeded_task_resets_on_transition 200 (λ _, Value)
                (mkTaskEvent "T") self (mkWatchedTask 100 "S" true)
                Hreach eq_refl eq_refl) as (Hw & _ & Hreset & _).
  split; [exact Hw | exact (Hreset eq_refl)].
Defined.

(** C2.  For a task tracked in the failure watcher, a task-failed event
    with its uuid calls [increment_failure_count(schedule_id)] exactly
    once, whatever the watch's flag, and removes the watch, so the watcher
    no longer holds that uuid; for an untracked uuid no store call is
    made.  The watcher is any state the scheduler and the handlers can
    bring it to. *)
Theorem handle_failed_task_increments_once event self :
  Watching.reachable self →
  let self' := handle_failed_task event self in
  _watches self' = delete (uuid event) (_watches self)
  ∧ _watches self' !! uuid event = None
  ∧ (∀ watch, _watches self !! uuid event = Some watch →
       store_calls self' = store_calls self ++ [increment_failure_count (schedule_id watch)])
  ∧ (_watches self !! uuid event = None → store_calls self' = store_calls self).
Proof.
  intros Hreach self'. subst self'. rewrite handle_failed_task_eq.
  cbn [_watches store_calls].
  split; [done|]. split; [apply lookup_delete_eq|]. split.
  - intros watch Hk. by rewrite Hk, (reachable_eqb _ _ _ Hreach Hk).
  - intros ->. by rewrite app_nil_r.
Qed.

Lemma handle_failed_task_increments_once_witness :
  let call := Scheduler.mkScheduledCall "S" None 5%N (Some 3%N) 0%N in
  let self :=
    Scheduler.apply_async 100 (Scheduler.as_schedule_entry call) "T" FailureWatcher.init in
  let self' := FailureWatcher.handle_failed_task (FailureWatcher.mkTaskEvent "T") self in
  FailureWatcher._watches self' = ∅
  ∧ FailureWatcher.store_calls self' = [FailureWatcher.increment_failure_count "S"]
  ∧ FailureWatcher.store_calls
      (FailureWatcher.handle_failed_task (FailureWatcher.mkTaskEvent "U") self) = [].
Proof.
  intros call self self'.
  assert (Watching.reachable self) as Hreach.
  { apply Watching.reachable_apply_async; [apply Watching.reachable_init|].
    simpl. discriminate. }
  pose proof (handle_failed_task_increments_once (mkTaskEvent "T") self Hreach)
    as (Hw & _ & Hinc & _).
  pose proof (handle_failed_task_increments_once (mkTaskEvent "U") self Hreach)
    as (_ & _ & _ & Hnone).
  split; [exact Hw | split].
  - exact (Hinc (mkWatchedTask 100 "S" false) eq_refl).
  - exact (Hnone eq_refl).
Defined.

(** C3.  For a task tracked in the failure watcher, a task-succeeded event
    for it whose result is a reference to another task [child] moves the
    watch: an entry for [child] with the same schedule id and the same
    flag is entered (stamped with the current time), the parent's uuid is
    no longer tracked, and no store call is made.  The watcher is any
    state the scheduler and the handlers can bring it to. *)
Theorem handle_succeeded_task_moves_the_watch now results event self watch child :
  Watching.reachable self →
  _watches self !! uuid event = Some watch →
  results (uuid event) = AsyncResult child →
  child ≠ uuid event →
  let self' := handle_succeeded_task now results event self in
  _watches self'
  = <[child := mkWatchedTask now (schedule_id watch) (has_failure watch)]>
      (delete (uuid event) (_watches self))
  ∧ _watches self' !! child
    = Some (mkWatchedTask now (schedule_id watch) (has_failure watch))
  ∧ _watches self' !! uuid event = None
  ∧ store_calls self' = store_calls self.
Proof.
  intros Hreach Hk Hres Hne self'. subst self'.
  rewrite handle_succeeded_task_eq, Hk, (reachable_eqb _ _ _ Hreach Hk), Hres.
  cbn [_watches store_calls].
  split; [done|]. split; [apply lookup_insert_eq|]. split; [|done].
  rewrite lookup_insert_ne by done. apply lookup_delete_eq.
Qed.

Lemma handle_succeeded_task_moves_the_watch_witness :
  let call := Scheduler.mkScheduledCall "S" None 5%N (Some 3%N) 1%N in
  let self :=
    Scheduler.apply_async 100 (Scheduler.as_schedule_entry call) "T" FailureWatcher.init in
  let self' :=
    FailureWatcher.handle_succeeded_task 200 (λ _, FailureWatcher.AsyncResult "T'")
      (FailureWatcher.mkTaskEvent "T") self in
  FailureWatcher._watches self' !! "T'"
    = Some (FailureWatcher.mkWatchedTask 200 "S" true)
  ∧ FailureWatcher._watches self' !! "T" = None
  ∧ FailureWatcher.store_calls self' = [].
Proof.
  intros call self self'.
  assert (Watching.reachable self) as Hreach.
  { apply Watching.reachable_apply_async; [apply Watching.reachable_init|].
    simpl. discriminate. }
  pose proof (handle_succeeded_task_moves_the_watch 200 (λ _, AsyncResult "T'")
                (mkTaskEvent "T") self (mkWatchedTask 100 "S" true) "T'"
                Hreach eq_refl eq_refl) as H.
  destruct H as (_ & Hchild & Hparent & Hstore); [discriminate|].
  split; [exact Hchild | split; [exact Hparent | exact Hstore]].
Defined.

End task_handlers.

(** ** Worker events and the timeout sweep *)

Section workers.

Import Resources.

Lemma prefix_append (p rest : string) : String.prefix p (p +:+ rest) = true.
Proof.
  induction p as [|a p IH]; simpl.
  - by destruct rest.
  - destruct (Ascii.ascii_dec a a); [exact IH | done].
Qed.

Lemma prefix_is_append (p s : string) :
  String.prefix p s = true → ∃ rest, s = p +:+ rest.
Proof.
  revert s. induction p as [|a p IH]; intros s Hs.
  - by exists s.
  - destruct s as [|b s]; simpl in Hs; [done|].
    destruct (Ascii.ascii_dec a b) as [->|]; [|done].
    destruct (IH s Hs) as [rest ->]. by exists rest.
Qed.

Lemma _is_resource_manager_iff (event : WorkerWatcher.Event) :
  WorkerWatcher._is_resource_manager event = true
  ↔ ∃ rest, WorkerWatcher.hostname event = "resource_manager@" +:+ rest.
Proof.
  unfold WorkerWatcher._is_resource_manager. split.
  - destruct (String.prefix _ _) eqn:Hp; [|done]. intros _.
    by apply prefix_is_append.
  - intros [rest ->]. by rewrite prefix_append.
Qed.

(** C9.  A worker-heartbeat or worker-offline event whose hostname begins
    with [resource_manager@] changes neither the registry nor the list of
    submitted tasks: the handler returns after the filter check. *)
Theorem resource_manager_events_are_dropped
    (timestamp : Z) (type rest : string) (w : world) :
  let event := WorkerWatcher.mkEvent timestamp type ("resource_manager@" +:+ rest) in
  WorkerWatcher.handle_worker_heartbeat event w = w
  ∧ WorkerWatcher.handle_worker_offline event w = w.
Proof.
  intros event.
  assert (WorkerWatcher._is_resource_manager event = true) as Hrm.
  { apply _is_resource_manager_iff. by exists rest. }
  unfold WorkerWatcher.handle_worker_heartbeat, WorkerWatcher.handle_worker_offline.
  by rewrite Hrm.
Qed.

(** Any other worker's offline event is not dropped: it submits the
    cleanup task. *)
Lemma handle_worker_offline_submits (event : WorkerWatcher.Event) (w : world) :
  WorkerWatcher._is_resource_manager event = false →
  WorkerWatcher.handle_worker_offline event w
  = apply_async _delete_queue [WorkerWatcher.hostname event] "resource_manager" w.
Proof.
  intros Hrm. unfold WorkerWatcher.handle_worker_offline. by rewrite Hrm.
Qed.

Lemma foldl_apply_async (workers : list AvailableQueue) (w : world) :
  foldl (λ w worker, apply_async _delete_queue [name worker] RESOURCE_MANAGER_QUEUE w)
        w workers
  = {| available_queues := available_queues w;
       submissions :=
         submissions w
         ++ ((λ worker, mkSubmission _delete_queue [name worker] RESOURCE_MANAGER_QUEUE)
               <$> workers) |}.
Proof.
  revert w. induction workers as [|q workers IH]; intros w; simpl.
  - rewrite app_nil_r. by destruct w.
  - rewrite IH. simpl. by rewrite <- app_assoc.
Qed.

Lemma count_NoDup {A : Type} `{EqDecision A} (x : A) (l : list A) :
  NoDup l →
  length (filter (λ y, y = x) l) = if decide (x ∈ l) then 1%nat else 0%nat.
Proof.
  induction 1 as [|y l Hy Hl IH].
  - by rewrite decide_False by apply not_elem_of_nil.
  - rewrite filter_cons. destruct (decide (y = x)) as [->|Hne]; simpl.
    + rewrite IH. rewrite (decide_False _ _ Hy).
      by rewrite decide_True by left.
    + rewrite IH. destruct (decide (x ∈ l)) as [Hin|Hnin].
      * by rewrite decide_True by (by right).
      * rewrite decide_False; [done|].
        intros [->|?]%elem_of_cons; done.
Qed.

Lemma check_workers_eq (utcnow : Z) (w : world) :
  WorkerTimeoutMonitor.check_workers utcnow w
  = {| available_queues := available_queues w;
       submissions :=
         submissions w
         ++ ((λ worker_name, mkSubmission _delete_queue [worker_name] "resource_manager")
               <$> (filter (λ item, doc_last_heartbeat item.2 < utcnow - 300)
                      (map_to_list (available_queues w))).*1) |}.
Proof.
  unfold WorkerTimeoutMonitor.check_workers. rewrite foldl_apply_async.
  f_equal. f_equal. unfold filter_available_queues.
  rewrite <- !list_fmap_compose. reflexivity.
Qed.

Lemma NoDup_missing (oldest : Z) (m : gmap string document) :
  NoDup (filter (λ item : string * document, doc_last_heartbeat item.2 < oldest)
           (map_to_list m)).*1.
Proof.
  apply NoDup_fmap_fst.
  - intros k d1 d2 [_ H1]%list_elem_of_filter [_ H2]%list_elem_of_filter.
    exact (map_to_list_unique m k d1 d2 H1 H2).
  - apply NoDup_filter, NoDup_map_to_list.
Qed.

Lemma elem_of_missing (oldest : Z) (m : gmap string document) (k : string) :
  k ∈ (filter (λ item : string * document, doc_last_heartbeat item.2 < oldest)
         (map_to_list m)).*1
  ↔ ∃ doc, m !! k = Some doc ∧ doc_last_heartbeat doc < oldest.
Proof.
  rewrite list_elem_of_fmap. split.
  - intros [[k' doc] [-> [Hold Hin%elem_of_map_to_list]%list_elem_of_filter]].
    by exists doc.
  - intros (doc & Hk & Hold). exists (k, doc). split; [done|].
    apply list_elem_of_filter. split; [done|]. by apply elem_of_map_to_list.
Qed.

Lemma delete_queue_submission_inj :
  Inj (=) (=) (λ worker_name, mkSubmission _delete_queue [worker_name] "resource_manager").
Proof. by intros k1 k2 [= ->]. Qed.

(** C10.  One sweep at time [utcnow] leaves the registry as it is and
    appends to the submitted tasks exactly one
    [_delete_queue(worker.name)] on the [resource_manager] queue for each
    row whose last heartbeat is before [utcnow - 300], and nothing else:
    nothing for a row at or after the cutoff, nothing for a name that has
    no row.  A registry of one row that is 301 seconds old gives exactly
    one submission. *)
Theorem check_workers_submits_once_per_missing_worker (utcnow : Z) (w : world) :
  let w' := WorkerTimeoutMonitor.check_workers utcnow w in
  let new := drop (length (submissions w)) (submissions w') in
  let delete_queue worker_name :=
    mkSubmission _delete_queue [worker_name] "resource_manager" in
  let count worker_name := length (filter (λ s, s = delete_queue worker_name) new) in
  available_queues w' = available_queues w
  ∧ submissions w' = submissions w ++ new
  ∧ (∀ s, s ∈ new → ∃ worker_name doc,
        s = delete_queue worker_name
        ∧ available_queues w !! worker_name = Some doc
        ∧ doc_last_heartbeat doc < utcnow - 300)
  ∧ (∀ worker_name doc,
        available_queues w !! worker_name = Some doc →
        doc_last_heartbeat doc < utcnow - 300 → count worker_name = 1%nat)
  ∧ (∀ worker_name doc,
        available_queues w !! worker_name = Some doc →
        utcnow - 300 ≤ doc_last_heartbeat doc → count worker_name = 0%nat)
  ∧ (∀ worker_name,
        available_queues w !! worker_name = None → count worker_name = 0%nat)
  ∧ (∀ worker_name reservations,
        available_queues w = {[worker_name := mkDocument (utcnow - 301) reservations]} →
        new = [delete_queue worker_name]).
Proof.
  intros w' new delete_queue count.
  subst w' new count. rewrite check_workers_eq. cbn [submissions available_queues].
  rewrite drop_app_length.
  set (ids := (filter _ (map_to_list (available_queues w))).*1).
  assert (∀ k, length (filter (λ s, s = delete_queue k) (delete_queue <$> ids))
               = if decide (k ∈ ids) then 1%nat else 0%nat) as Hcount.
  { intros k. rewrite count_NoDup.
    - destruct (decide (k ∈ ids)) as [Hin|Hnin].
      + rewrite decide_True; [done|]. apply list_elem_of_fmap. eauto.
      + rewrite decide_False; [done|].
        intros (k' & Heq & Hin)%list_elem_of_fmap.
        apply delete_queue_submission_inj in Heq. by subst.
    - apply NoDup_fmap_2; [apply delete_queue_submission_inj | apply NoDup_missing]. }
  split; [done|]. split; [done|]. split; [|split; [|split; [|split]]].
  - intros s (k & -> & (doc & Hk & Hold)%elem_of_missing)%list_elem_of_fmap.
    by exists k, doc.
  - intros k doc Hk Hold. rewrite Hcount, decide_True; [done|].
    apply elem_of_missing. eauto.
  - intros k doc Hk Hnew. rewrite Hcount, decide_False; [done|].
    intros (doc' & Hk' & Hold)%elem_of_missing. simplify_eq. lia.
  - intros k Hk. rewrite Hcount, decide_False; [done|].
    intros (doc' & Hk' & Hold)%elem_of_missing. congruence.
  - intros k n Hw. subst ids. rewrite Hw, map_to_list_singleton.
    rewrite filter_cons_True by (simpl; lia). reflexivity.
Qed.

Lemma check_workers_submits_once_per_missing_worker_witness :
  let w := {| Resources.available_queues :=
                {[ "w1" := Resources.mkDocument 600 0;
                   "w2" := Resources.mkDocument 800 2 ]};
              Resources.submissions := [] |} in
  let new := Resources.submissions (WorkerTimeoutMonitor.check_workers 1000 w) in
  length (filter (λ s, s = Resources.mkSubmission Resources._delete_queue ["w1"]
                               "resource_manager") new) = 1%nat
  ∧ length (filter (λ s, s = Resources.mkSubmission Resources._delete_queue ["w2"]
                                 "resource_manager") new) = 0%nat
  ∧ length (filter (λ s, s = Resources.mkSubmission Resources._delete_queue ["w3"]
                                 "resource_manager") new) = 0%nat.
Proof.
  intros w new.
  pose proof (check_workers_submits_once_per_missing_worker 1000 w)
    as (_ & _ & _ & Hmissing & Hpresent & Habsent & _).
  split; [|split].
  - apply (Hmissing "w1" (mkDocument 600 0)); [reflexivity | simpl; lia].
  - apply (Hpresent "w2" (mkDocument 800 2)); [reflexivity | simpl; lia].
  - apply (Habsent "w3"). reflexivity.
Defined.

End workers.

(** ** The schedule cache *)

Section schedule_cache.

Import Scheduler.

Implicit Types (conf : gmap string (gmap string string)) (store : Store).
Implicit Types (self : state) (call : ScheduledCall) (calls : list ScheduledCall).

Lemma remaining_runs_is_0_true call :
  remaining_runs_is_0 call = true ↔ remaining_runs call = Some 0%N.
Proof.
  unfold remaining_runs_is_0. destruct (remaining_runs call) as [n|]; [|done].
  rewrite N.eqb_eq. split; [by intros -> | by intros [= ->]].
Qed.

Lemma foldl_load_call calls (acc : loading) :
  foldl load_call acc calls
  = {| schedule_so_far :=
         foldl (λ schedule call, <[id call := ScheduleEntry call]> schedule)
               (schedule_so_far acc) (filter runs_left calls);
       update_timestamps :=
         update_timestamps acc ++ (last_updated <$> filter runs_left calls);
       ignored_db_count :=
         ignored_db_count acc
         + Z.of_nat (length (filter (λ call, remaining_runs call = Some 0%N) calls));
       loaded_so_far :=
         loaded_so_far acc + Z.of_nat (length (filter runs_left calls)) |}.
Proof.
  revert acc. induction calls as [|call calls IH]; intros acc.
  - simpl. rewrite app_nil_r, !Z.add_0_r. by destruct acc.
  - cbn [foldl]. rewrite IH. unfold load_call.
    destruct (remaining_runs_is_0 call) eqn:Hz.
    + apply remaining_runs_is_0_true in Hz.
      rewrite (filter_cons_False runs_left) by (intros H; by apply H).
      rewrite (filter_cons_True (λ call, remaining_runs call = Some 0%N)) by done.
      cbn [schedule_so_far update_timestamps ignored_db_count loaded_so_far length].
      f_equal. lia.
    + assert (remaining_runs call ≠ Some 0%N) as Hnz.
      { intros H%remaining_runs_is_0_true. congruence. }
      rewrite (filter_cons_True runs_left) by done.
      rewrite (filter_cons_False (λ call, remaining_runs call = Some 0%N)) by done.
      cbn [schedule_so_far update_timestamps ignored_db_count loaded_so_far
           length foldl fmap list_fmap].
      f_equal; [by rewrite <- app_assoc | lia].
Qed.

Lemma setup_schedule_eq conf store self :
  setup_schedule conf store self
  = {| _schedule :=
         Some (foldl (λ schedule call, <[id call := ScheduleEntry call]> schedule)
                     (from_app conf) (filter runs_left (get_enabled store)));
       _loaded_from_db_count :=
         Z.of_nat (length (filter runs_left (get_enabled store)));
       _most_recent_timestamp :=
         Some (foldl N.max 0%N (last_updated <$> filter runs_left (get_enabled store)));
       queries := queries self ++ [load_enabled] |}.
Proof. unfold setup_schedule. rewrite foldl_load_call. reflexivity. Qed.

(** The configured entries are all [beat.ScheduleEntry]s. *)
Lemma from_app_lookup conf k :
  from_app conf !! k
  = (λ value, beat_ScheduleEntry (<["name" := k]> value)) <$> conf !! k.
Proof.
  unfold from_app.
  apply (map_fold_weak_ind (λ schedule m,
           schedule !! k
           = (λ value, beat_ScheduleEntry (<["name" := k]> value)) <$> m !! k)).
  - by rewrite !lookup_empty.
  - intros key value m schedule _ IH.
    destruct (decide (key = k)) as [->|Hne].
    + by rewrite !lookup_insert_eq.
    + by rewrite !lookup_insert_ne.
Qed.

Lemma foldl_insert_calls_lookup calls (schedule : gmap string Entry) k call :
  foldl (λ schedule call, <[id call := ScheduleEntry call]> schedule) schedule calls !! k
  = Some (ScheduleEntry call) →
  (call ∈ calls ∧ id call = k) ∨ schedule !! k = Some (ScheduleEntry call).
Proof.
  revert schedule. induction calls as [|c calls IH]; intros schedule; simpl.
  - by right.
  - intros [[Hin Hid]|Hk]%IH.
    + left. split; [by right | done].
    + destruct (decide (id c = k)) as [<-|Hne].
      * rewrite lookup_insert_eq in Hk. injection Hk as ->.
        left. split; [by left | done].
      * rewrite lookup_insert_ne in Hk by done. by right.
Qed.

Lemma foldl_insert_calls_NoDup calls (schedule : gmap string Entry) call :
  NoDup (id <$> calls) → call ∈ calls →
  foldl (λ schedule call, <[id call := ScheduleEntry call]> schedule) schedule calls
    !! id call = Some (ScheduleEntry call).
Proof.
  revert schedule. induction calls as [|c calls IH]; intros schedule Hnd Hin.
  - by apply elem_of_nil in Hin.
  - rewrite fmap_cons in Hnd. apply NoDup_cons in Hnd as [Hc Hnd].
    apply elem_of_cons in Hin as [->|Hin]; simpl.
    + clear IH. revert schedule. induction calls as [|c' calls IH]; intros schedule.
      * apply lookup_insert_eq.
      * rewrite fmap_cons in Hc, Hnd. apply NoDup_cons in Hnd as [_ Hnd].
        apply not_elem_of_cons in Hc as [Hne Hc]. simpl.
        rewrite insert_insert_ne by done. by apply IH.
    + by apply IH.
Qed.

Lemma foldl_max_bounds (x : N) (l : list N) :
  (x ≤ foldl N.max x l)%N
  ∧ (∀ y, y ∈ l → (y ≤ foldl N.max x l)%N)
  ∧ (foldl N.max x l = x ∨ foldl N.max x l ∈ l).
Proof.
  revert x. induction l as [|y l IH]; intros x; simpl.
  - split; [lia|]. split; [|by left]. intros y Hy. by apply elem_of_nil in Hy.
  - destruct (IH (N.max x y)) as (Hx & Hall & Hor).
    split; [lia|]. split.
    + intros z [->|Hz]%elem_of_cons; [lia | by apply Hall].
    + destruct Hor as [Heq|Hin]; [|right; by right].
      rewrite Heq. destruct (N.max_spec x y) as [[_ ->]|[_ ->]];
        [right; by left | by left].
Qed.

Lemma foldl_insert_calls_lookup_ne calls (schedule : gmap string Entry) k :
  k ∉ id <$> calls →
  foldl (λ schedule call, <[id call := ScheduleEntry call]> schedule) schedule calls !! k
  = schedule !! k.
Proof.
  revert schedule. induction calls as [|c calls IH]; intros schedule Hk; [done|].
  rewrite fmap_cons in Hk. apply not_elem_of_cons in Hk as [Hne Hk]. simpl.
  rewrite IH by done. by apply lookup_insert_ne.
Qed.

(** C7.  [setup_schedule] puts into [_schedule], on top of the configured
    entries, the entries of exactly the enabled calls whose
    [remaining_runs] is not [0]: an entry derived from a call comes from
    an enabled call with runs left, so a call with [remaining_runs == 0]
    is never in [_schedule]; each enabled call with runs left is there
    under its id (ids being unique); keys of no such call keep their
    configured entry.  [_loaded_from_db_count] is the number of calls put
    in, and [_most_recent_timestamp] is the greatest [last_updated] among
    them, or [0] when there is none. *)
Theorem setup_schedule_loads_calls_with_runs_left conf store self :
  let inserted := filter runs_left (get_enabled store) in
  let self' := setup_schedule conf store self in
  let schedule := default ∅ (_schedule self') in
  _schedule self'
  = Some (foldl (λ schedule call, <[id call := as_schedule_entry call]> schedule)
                (from_app conf) inserted)
  ∧ (∀ k call, schedule !! k = Some (ScheduleEntry call) →
       call ∈ get_enabled store ∧ remaining_runs call ≠ Some 0%N ∧ id call = k)
  ∧ (∀ k call, remaining_runs call = Some 0%N →
       schedule !! k ≠ Some (ScheduleEntry call))
  ∧ (NoDup (id <$> inserted) →
     ∀ call, call ∈ get_enabled store → remaining_runs call ≠ Some 0%N →
       schedule !! id call = Some (ScheduleEntry call))
  ∧ (∀ k, k ∉ id <$> inserted → schedule !! k = from_app conf !! k)
  ∧ _loaded_from_db_count self' = Z.of_nat (length inserted)
  ∧ (inserted = [] → _most_recent_timestamp self' = Some 0%N)
  ∧ (inserted ≠ [] →
     ∃ latest, latest ∈ inserted
       ∧ _most_recent_timestamp self' = Some (last_updated latest)
       ∧ ∀ call, call ∈ inserted → (last_updated call ≤ last_updated latest)%N).
Proof.
  intros inserted self' schedule. subst self' schedule.
  rewrite setup_schedule_eq. cbn [_schedule _loaded_from_db_count
    _most_recent_timestamp default from_option]. fold inserted.
  assert (∀ k call,
    foldl (λ schedule call, <[id call := ScheduleEntry call]> schedule)
          (from_app conf) inserted !! k = Some (ScheduleEntry call) →
    call ∈ get_enabled store ∧ remaining_runs call ≠ Some 0%N ∧ id call = k) as Honly.
  { intros k call [[Hin Hid]|Hk]%foldl_insert_calls_lookup.
    - apply list_elem_of_filter in Hin as [Hleft Hin]. done.
    - rewrite from_app_lookup in Hk. by destruct (conf !! k). }
  split; [done|]. split; [exact Honly|]. split; [|split; [|split; [|split; [|split]]]].
  - intros k call Hz Hk. apply Honly in Hk as (_ & Hnz & _). done.
  - intros Hnd call Hin Hleft. apply foldl_insert_calls_NoDup; [done|].
    apply list_elem_of_filter. done.
  - intros k Hk. by apply foldl_insert_calls_lookup_ne.
  - done.
  - by intros ->.
  - intros Hne.
    destruct (foldl_max_bounds 0%N (last_updated <$> inserted)) as (_ & Hall & [H0|Hin]).
    + destruct inserted as [|call0 rest] eqn:Hins; [done|].
      exists call0. split; [by left|]. rewrite H0.
      assert (∀ call, call ∈ call0 :: rest → last_updated call = 0%N) as Hzero.
      { intros call Hin.
        assert (last_updated call ≤ foldl N.max 0 (last_updated <$> call0 :: rest))%N
          as Hle by (apply Hall, list_elem_of_fmap; eauto).
        rewrite H0 in Hle. lia. }
      split.
      * f_equal. symmetry. apply Hzero. by left.
      * intros call Hin. rewrite (Hzero call Hin). lia.
    + apply list_elem_of_fmap in Hin as (latest & Heq & Hin).
      exists latest. split; [done|]. split; [by rewrite Heq|].
      intros call Hcall. rewrite <- Heq. apply Hall, list_elem_of_fmap. eauto.
Qed.

Lemma setup_schedule_loads_calls_with_runs_left_witness :
  let spent := Scheduler.mkScheduledCall "a" (Some 0%N) 9%N None 0%N in
  let endless := Scheduler.mkScheduledCall "b" None 5%N (Some 3%N) 1%N in
  let twice := Scheduler.mkScheduledCall "c" (Some 2%N) 7%N None 0%N in
  let store := Scheduler.mkStore [spent; endless; twice] (λ _, []) in
  let self' := Scheduler.setup_schedule ∅ store Scheduler.init in
  let schedule := default ∅ (Scheduler._schedule self') in
  schedule !! "a" = None
  ∧ schedule !! "b" = Some (Scheduler.ScheduleEntry endless)
  ∧ schedule !! "c" = Some (Scheduler.ScheduleEntry twice)
  ∧ Scheduler._loaded_from_db_count self' = 2
  ∧ ∃ latest, Scheduler._most_recent_timestamp self'
              = Some (Scheduler.last_updated latest).
Proof.
  intros spent endless twice store self' schedule.
  pose proof (setup_schedule_loads_calls_with_runs_left ∅ store Scheduler.init)
    as (_ & _ & _ & Hin & Hout & Hcount & _ & Hlatest).
  assert (NoDup (Scheduler.id <$> filter Scheduler.runs_left
                   (Scheduler.get_enabled store))) as Hnd.
  { apply (NoDup_cons_2 "b" ["c"]); [|apply NoDup_singleton].
    intros [= ]%list_elem_of_singleton. }
  unfold schedule, self'.
  split; [|split; [|split; [|split]]].
  - rewrite (Hout "a"); [reflexivity|].
    intros [[= ]|[= ]%list_elem_of_singleton]%elem_of_cons.
  - apply (Hin Hnd endless); [right; left | discriminate].
  - apply (Hin Hnd twice); [right; right; left | discriminate].
  - exact Hcount.
  - destruct Hlatest as (latest & _ & Hts & _); [discriminate|].
    by exists latest.
Defined.

(** C8.  When the store holds an enabled call with [remaining_runs == 0],
    [schedule_changed] is true right after [setup_schedule], the store
    unchanged: the enabled count includes that call and
    [_loaded_from_db_count] does not.  So every read of the [schedule]
    property then loads the store's calls again, and each read returns the
    same snapshot. *)
Theorem schedule_changed_while_a_spent_call_is_enabled conf store self call :
  call ∈ get_enabled store →
  remaining_runs call = Some 0%N →
  let self' := setup_schedule conf store self in
  (schedule_changed store self').1 = Some true
  ∧ (_loaded_from_db_count self' < Z.of_nat (length (get_enabled store)))
  ∧ ∀ n,
      loads (read_schedule n conf store self') = (loads self' + n)%nat
      ∧ (schedule conf store (read_schedule n conf store self')).1 = _schedule self'.
Proof.
  intros Hin Hz self'.
  assert (Z.of_nat (length (filter runs_left (get_enabled store)))
          < Z.of_nat (length (get_enabled store))) as Hlt.
  { apply inj_lt. apply (length_filter_lt _ _ call); [done|].
    intros Hleft. by apply Hleft. }
  assert (∀ s, _schedule s = _schedule self' →
               _loaded_from_db_count s = _loaded_from_db_count self' →
               schedule conf store s
               = (_schedule self', setup_schedule conf store (ask count_enabled s)))
    as Hread.
  { intros s Hs Hc. unfold schedule, schedule_changed.
    rewrite Hs. subst self'. rewrite setup_schedule_eq in Hc |- *.
    cbn [_schedule _loaded_from_db_count ask] in Hc |- *. rewrite Hc.
    rewrite bool_decide_eq_true_2 by lia.
    by rewrite !setup_schedule_eq. }
  split; [|split].
  - unfold schedule_changed. subst self'. rewrite setup_schedule_eq.
    cbn [_loaded_from_db_count ask]. by rewrite bool_decide_eq_true_2 by lia.
  - subst self'. by rewrite setup_schedule_eq.
  - assert (∀ n s, _schedule s = _schedule self' →
                   _loaded_from_db_count s = _loaded_from_db_count self' →
                   loads (read_schedule n conf store s) = (loads s + n)%nat
                   ∧ (schedule conf store (read_schedule n conf store s)).1
                     = _schedule self') as Hiter.
    { induction n as [|n IH]; intros s Hs Hc.
      - simpl. rewrite Hread by done. split; [lia | done].
      - cbn [read_schedule]. rewrite Hread by done. cbn [snd].
        destruct (IH (setup_schedule conf store (ask count_enabled s))) as [Hl Hr].
        + subst self'. by rewrite !setup_schedule_eq.
        + subst self'. by rewrite !setup_schedule_eq.
        + split; [|exact Hr]. rewrite Hl. unfold loads.
          rewrite setup_schedule_eq. cbn [queries ask].
          rewrite !filter_app, !length_app.
          rewrite (filter_cons_False _ count_enabled) by done.
          rewrite (filter_cons_True _ load_enabled) by done.
          simpl. lia. }
    intros n. by apply Hiter.
Qed.

Lemma schedule_changed_while_a_spent_call_is_enabled_witness :
  let spent := Scheduler.mkScheduledCall "a" (Some 0%N) 9%N None 0%N in
  let endless := Scheduler.mkScheduledCall "b" None 5%N (Some 3%N) 1%N in
  let store := Scheduler.mkStore [spent; endless] (λ _, []) in
  let self' := Scheduler.setup_schedule ∅ store Scheduler.init in
  (Scheduler.schedule_changed store self').1 = Some true
  ∧ Scheduler.loads (Scheduler.read_schedule 3 ∅ store self') = 4%nat.
Proof.
  intros spent endless store self'.
  pose proof (schedule_changed_while_a_spent_call_is_enabled ∅ store
                Scheduler.init spent) as H.
  destruct H as (Hchanged & _ & Hreads); [by left | reflexivity |].
  split; [exact Hchanged|]. exact (proj1 (Hreads 3%nat)).
Defined.

(** Without such a call, and with nothing updated since the load, the
    cache is kept: [schedule_changed] is false after [setup_schedule]. *)
Lemma schedule_changed_false_after_clean_load conf store self :
  (∀ call, call ∈ get_enabled store → remaining_runs call ≠ Some 0%N) →
  (∀ timestamp, get_updated_since store timestamp = []) →
  (schedule_changed store (setup_schedule conf store self)).1 = Some false.
Proof.
  intros Hall Hnone. unfold schedule_changed. rewrite setup_schedule_eq.
  cbn [_loaded_from_db_count _most_recent_timestamp ask].
  assert (filter runs_left (get_enabled store) = get_enabled store) as ->.
  { induction (get_enabled store) as [|c l IH]; [done|].
    rewrite filter_cons_True by (apply Hall; by left).
    f_equal. apply IH. intros call ?. apply Hall. by right. }
  rewrite bool_decide_eq_false_2 by (intros H; by apply H).
  rewrite Hnone. by rewrite bool_decide_eq_false_2 by (simpl; lia).
Qed.

(** A dispatched entry is watched exactly when its call has a failure
    threshold; the flag records whether the call has failures on record. *)
Lemma apply_async_watches now call result_id (watcher : FailureWatcher.state) :
  let watcher' := apply_async now (as_schedule_entry call) result_id watcher in
  (truth_of_count (failure_threshold call) = true →
     FailureWatcher._watches watcher' !! result_id
     = Some (FailureWatcher.mkWatchedTask now (id call)
               (negb (consecutive_failures call =? 0)%N)))
  ∧ (truth_of_count (failure_threshold call) = false → watcher' = watcher).
Proof.
  simpl. destruct (truth_of_count (failure_threshold call)); split; try done.
  intros _. apply lookup_insert_eq.
Qed.

End schedule_cache.

(** ** The watch table under two threads *)

Section two_threads.

Import FailureWatcher Threads.

Implicit Types (watches d : gmap string WatchedTask) (k task_id : string).
Implicit Types (b e c : call) (schedule : list thread).

Lemma finish_step c d : finish (step c d).1 (step c d).2 = finish c d.
Proof. destruct c as [now|[|t ids]| | | |]; reflexivity. Qed.

Lemma interleave_returned_r schedule b d :
  interleave schedule b returned d = finish b d.
Proof.
  revert b d. induction schedule as [|[] schedule IH]; intros b d; [done| |].
  - cbn [interleave]. destruct (step b d) as [b' d'] eqn:Hstep.
    rewrite IH. by rewrite <- (finish_step b d), Hstep.
  - simpl. apply IH.
Qed.

Lemma interleave_returned_l schedule e d :
  interleave schedule returned e d = finish e d.
Proof.
  revert e d. induction schedule as [|[] schedule IH]; intros e d; [done| |].
  - simpl. apply IH.
  - cbn [interleave]. destruct (step e d) as [e' d'] eqn:Hstep.
    rewrite IH. by rewrite <- (finish_step e d), Hstep.
Qed.

Lemma foldl_pop_delete (ids : list string) k d :
  foldl (λ d task_id, (dict_pop task_id Some None d).2) (delete k d) ids
  = delete k (foldl (λ d task_id, (dict_pop task_id Some None d).2) d ids).
Proof.
  apply map_eq. intros i. rewrite foldl_pop_lookup.
  destruct (decide (i = k)) as [->|Hne].
  - rewrite !lookup_delete_eq. by destruct (decide _).
  - by rewrite !lookup_delete_ne, foldl_pop_lookup by done.
Qed.

Lemma foldl_pop_insert (ids : list string) k watch d :
  k ∉ ids →
  foldl (λ d task_id, (dict_pop task_id Some None d).2) (<[k := watch]> d) ids
  = <[k := watch]> (foldl (λ d task_id, (dict_pop task_id Some None d).2) d ids).
Proof.
  intros Hk. apply map_eq. intros i. rewrite foldl_pop_lookup.
  destruct (decide (i = k)) as [->|Hne].
  - rewrite !lookup_insert_eq. by rewrite decide_False.
  - by rewrite !lookup_insert_ne, foldl_pop_lookup by done.
Qed.

Lemma trim_watches_delete now k d :
  trim_watches now (delete k d) = delete k (trim_watches now d).
Proof.
  apply map_eq. intros i. rewrite trim_watches_lookup.
  destruct (decide (i = k)) as [->|Hne].
  - by rewrite !lookup_delete_eq.
  - by rewrite !lookup_delete_ne, trim_watches_lookup by done.
Qed.

(** A [pop] from the event-monitor thread commutes with what is left of a
    [trim] on the beat thread. *)
Lemma interleave_trim_loop_pop schedule ids k d :
  interleave schedule (in_trim_loop ids) (in_pop k) d
  = finish (in_pop k) (finish (in_trim_loop ids) d).
Proof.
  revert ids d. induction schedule as [|[] schedule IH]; intros ids d; [done| |].
  - destruct ids as [|t ids]; cbn [interleave step].
    + by rewrite interleave_returned_l.
    + by rewrite IH.
  - cbn [interleave step]. rewrite interleave_returned_r.
    cbn [finish]. rewrite !pop_watch_eq. cbn [snd]. apply foldl_pop_delete.
Qed.

(** So does an [add] of an id that the [trim] is not about to pop. *)
Lemma interleave_trim_loop_add schedule ids now k schedule_id has_failure d :
  k ∉ ids →
  interleave schedule (in_trim_loop ids) (in_add now k schedule_id has_failure) d
  = finish (in_add now k schedule_id has_failure) (finish (in_trim_loop ids) d).
Proof.
  revert ids d. induction schedule as [|[] schedule IH]; intros ids d Hk; [done| |].
  - destruct ids as [|t ids]; cbn [interleave step].
    + by rewrite interleave_returned_l.
    + rewrite IH; [done|]. by apply not_elem_of_cons in Hk as [_ ?].
  - cbn [interleave step]. rewrite interleave_returned_r.
    cbn [finish]. unfold add_watch. by apply foldl_pop_insert.
Qed.

(** C6 (as amended).  The methods of [FailureWatcher] take no lock.
    [add], [pop] and [__len__] are each one dict operation, so no other
    thread runs inside them.  [trim] is a snapshot of the table followed
    by one [pop] per stale id, and the event-monitor thread can run
    between these steps.  That is harmless for a [pop], and for an [add]
    of an id that is not stale in the table: the table ends as if the two
    calls had run one after the other.  An [add] that overwrites a stale
    id after the snapshot is lost: the id is untracked at the end, while
    it is tracked after either order of the two calls run one after the
    other. *)
Theorem trim_interleaves_with_the_event_thread :
  (∀ now k schedule_id has_failure d,
     step (in_add now k schedule_id has_failure) d
       = (returned, finish (in_add now k schedule_id has_failure) d)
     ∧ step (in_pop k) d = (returned, finish (in_pop k) d)
     ∧ step in_len d = (returned, finish in_len d))
  ∧ (∀ now d,
       step (in_trim now) d = (in_trim_loop (stale_ids now d), d)
       ∧ inside (step (in_trim now) d).1 = true
       ∧ finish (in_trim_loop (stale_ids now d)) d = trim_watches now d)
  ∧ (∀ schedule now k d,
       interleave schedule (in_trim now) (in_pop k) d
       = finish (in_pop k) (finish (in_trim now) d))
  ∧ (∀ schedule now now' k schedule_id has_failure d,
       k ∉ stale_ids now d →
       let e := in_add now' k schedule_id has_failure in
       interleave schedule (in_trim now) e d = finish e (finish (in_trim now) d)
       ∨ interleave schedule (in_trim now) e d = finish (in_trim now) (finish e d))
  ∧ (∀ now now' k schedule_id has_failure d watch,
       d !! k = Some watch →
       timestamp watch < now - 14400 →
       now - 14400 ≤ now' →
       let e := in_add now' k schedule_id has_failure in
       let entry := mkWatchedTask now' schedule_id has_failure in
       interleave [beat; event_monitor] (in_trim now) e d !! k = None
       ∧ finish e (finish (in_trim now) d) !! k = Some entry
       ∧ finish (in_trim now) (finish e d) !! k = Some entry).
Proof.
  split; [done|]. split; [done|]. split; [|split].
  - intros schedule now k d. induction schedule as [|[] schedule IH].
    + done.
    + cbn [interleave step]. by rewrite interleave_trim_loop_pop.
    + cbn [interleave step]. rewrite interleave_returned_r.
      cbn [finish]. rewrite !pop_watch_eq. cbn [snd]. apply trim_watches_delete.
  - intros schedule now now' k schedule_id has_failure d Hk e.
    destruct schedule as [|[] schedule].
    + by left.
    + left. subst e. cbn [interleave step]. by rewrite interleave_trim_loop_add.
    + right. subst e. cbn [interleave step]. by rewrite interleave_returned_r.
  - intros now now' k schedule_id has_failure d watch Hd Hold Hnew e entry.
    subst e entry. cbn [interleave step finish]. unfold add_watch.
    split; [|split].
    + rewrite foldl_pop_lookup, decide_True; [done|].
      apply elem_of_stale_ids. exists watch. by change ttl with 14400.
    + apply lookup_insert_eq.
    + rewrite trim_watches_lookup, lookup_insert_eq. cbn [timestamp].
      rewrite decide_False; [done|]. change ttl with 14400. lia.
Qed.

Lemma trim_interleaves_with_the_event_thread_witness :
  let d := {[ "T" := FailureWatcher.mkWatchedTask 100 "S" true;
              "U" := FailureWatcher.mkWatchedTask 19000 "S" false ]} in
  (let e := Threads.in_add 20000 "V" "S" false in
   Threads.interleave [Threads.beat; Threads.event_monitor] (Threads.in_trim 20000) e d
     = Threads.finish e (Threads.finish (Threads.in_trim 20000) d)
   ∨ Threads.interleave [Threads.beat; Threads.event_monitor] (Threads.in_trim 20000) e d
     = Threads.finish (Threads.in_trim 20000) (Threads.finish e d))
  ∧ Threads.interleave [Threads.beat; Threads.event_monitor] (Threads.in_trim 20000)
      (Threads.in_add 20001 "T" "S2" false) d !! "T" = None.
Proof.
  intros d.
  pose proof trim_interleaves_with_the_event_thread as (_ & _ & _ & Hfresh & Hlost).
  split.
  - apply (Hfresh [beat; event_monitor] 20000 20000 "V" "S" false d).
    vm_compute. intros H. repeat (apply elem_of_cons in H as [H|H]; [discriminate|]).
    by apply elem_of_nil in H.
  - apply (Hlost 20000 20001 "T" "S2" false d (mkWatchedTask 100 "S" true));
      [reflexivity | simpl; lia | lia].
Defined.

(** C6 fails as stated: the event-monitor thread's [add] runs while the
    beat thread is inside [trim], between its snapshot and its pops, and
    the table it leaves is the result of neither order of the two calls
    run one after the other. *)
Lemma add_inside_trim_is_not_serialized :
  let d := {[ "T" := FailureWatcher.mkWatchedTask 100 "S" true ]} in
  let b := Threads.in_trim 20000 in
  let e := Threads.in_add 20000 "T" "S" false in
  Threads.inside (Threads.configuration [Threads.beat] b e d).1 = true
  ∧ Threads.interleave [Threads.beat; Threads.event_monitor] b e d = ∅
  ∧ Threads.finish e (Threads.finish b d)
    = {[ "T" := FailureWatcher.mkWatchedTask 20000 "S" false ]}
  ∧ Threads.finish b (Threads.finish e d)
    = {[ "T" := FailureWatcher.mkWatchedTask 20000 "S" false ]}
  ∧ Threads.interleave [Threads.beat; Threads.event_monitor] b e d
    ≠ Threads.finish e (Threads.finish b d)
  ∧ Threads.interleave [Threads.beat; Threads.event_monitor] b e d
    ≠ Threads.finish b (Threads.finish e d).
Proof.
  split; [reflexivity|]. split; [reflexivity|]. split; [reflexivity|].
  split; [reflexivity|]. split; intros H;
    apply (f_equal (λ m : gmap string WatchedTask, m !! "T")) in H; discriminate H.
Qed.

End two_threads.

(** * Further properties *)

(** ** The watch table: round trips, lifetime, size *)

Section watch_table_more.

Import FailureWatcher.

Implicit Types (self : state) (watch : WatchedTask) (k task_id : string).

Lemma trim_lookup now self k :
  _watches (trim now self) !! k
  = match _watches self !! k with
    | Some watch => if decide (timestamp watch < now - 14400) then None else Some watch
    | None => None
    end.
Proof. simpl. by rewrite trim_watches_lookup. Qed.

Lemma state_eq self1 self2 :
  _watches self1 = _watches self2 → store_calls self1 = store_calls self2 →
  self1 = self2.
Proof. destruct self1, self2. simpl. by intros -> ->. Qed.

(** X1.  [pop] right after [add] of the same id gives back the schedule id
    and the flag that were added, and leaves the table as it was before the
    [add] without that id: exactly as it was when the id was not tracked. *)
Theorem add_then_pop now task_id sid hf self :
  let r := pop task_id (add now task_id sid hf self) in
  r.1 = (Some sid, Some hf)
  ∧ _watches r.2 = delete task_id (_watches self)
  ∧ store_calls r.2 = store_calls self
  ∧ (_watches self !! task_id = None → r.2 = self).
Proof.
  rewrite pop_eq. cbn [fst snd _watches store_calls add]. unfold add_watch.
  rewrite lookup_insert_eq, delete_insert_eq. cbn [schedule_id has_failure].
  split; [done|]. split; [done|]. split; [done|].
  intros Hk. apply state_eq; [by apply delete_id | done].
Qed.

Lemma add_then_pop_witness :
  (FailureWatcher.pop "T" (FailureWatcher.add 7 "T" "S" true FailureWatcher.init)).2
  = FailureWatcher.init.
Proof.
  exact (proj2 (proj2 (proj2 (add_then_pop 7 "T" "S" true FailureWatcher.init))) eq_refl).
Defined.

(** X2.  [add] overwrites: of two [add]s of one id only the second shows,
    timestamp included; no other id is touched; the table grows by one
    entry when the id was not tracked and keeps its size when it was. *)
Theorem add_last_writer_wins now1 now2 k sid1 sid2 hf1 hf2 self :
  add now2 k sid2 hf2 (add now1 k sid1 hf1 self) = add now2 k sid2 hf2 self
  ∧ (∀ k', k' ≠ k → _watches (add now2 k sid2 hf2 self) !! k' = _watches self !! k')
  ∧ __len__ (add now2 k sid2 hf2 self)
    = match _watches self !! k with
      | Some _ => __len__ self
      | None => S (__len__ self)
      end.
Proof.
  split; [|split].
  - unfold add, add_watch. cbn [_watches store_calls]. by rewrite insert_insert_eq.
  - intros k' Hk. simpl. unfold add_watch. by rewrite lookup_insert_ne.
  - unfold __len__, add, add_watch. cbn [_watches]. rewrite map_size_insert.
    by destruct (_watches self !! k).
Qed.

(** X3.  Trimming twice is trimming once at the later time, in either
    order; in particular [trim] is idempotent. *)
Theorem trim_twice now1 now2 self :
  now1 ≤ now2 →
  trim now2 (trim now1 self) = trim now2 self
  ∧ trim now1 (trim now2 self) = trim now2 self.
Proof.
  intros Hle. split; (apply state_eq; [|done]); apply map_eq; intros k;
    rewrite !trim_lookup; destruct (_watches self !! k) as [watch|]; try done;
    repeat (case_decide; try done); lia.
Qed.

Lemma trim_twice_witness :
  let self := FailureWatcher.add 9000 "U" "S" false
                (FailureWatcher.add 100 "T" "S" true FailureWatcher.init) in
  FailureWatcher.trim 20000 (FailureWatcher.trim 20000 self)
  = FailureWatcher.trim 20000 self.
Proof.
  intros self. apply (trim_twice 20000 20000 self). lia.
Defined.

(** X4.  A watch lives for the ttl: an entry added at time [t] is still
    there after a [trim] at time [now] exactly when [now - 14400 <= t];
    the [add] does not change what [trim] does to the other ids. *)
Theorem watch_lives_for_ttl now t k sid hf self :
  _watches (trim now (add t k sid hf self)) !! k
  = (if decide (now - 14400 ≤ t)
     then Some (mkWatchedTask t sid hf) else None)
  ∧ ∀ k', k' ≠ k →
      _watches (trim now (add t k sid hf self)) !! k'
      = _watches (trim now self) !! k'.
Proof.
  split.
  - rewrite trim_lookup. cbn [add _watches]. unfold add_watch.
    rewrite lookup_insert_eq. cbn [timestamp].
    repeat case_decide; try done; lia.
  - intros k' Hk. rewrite !trim_lookup. cbn [add _watches]. unfold add_watch.
    by rewrite lookup_insert_ne.
Qed.

(** X5.  [trim] only removes: the table never grows, and [trim] changes
    nothing exactly when no entry is older than the ttl (an empty table
    included). *)
Theorem trim_only_removes now self :
  (__len__ (trim now self) ≤ __len__ self)%nat
  ∧ (trim now self = self
     ↔ ∀ k watch, _watches self !! k = Some watch → now - 14400 ≤ timestamp watch).
Proof.
  split.
  - unfold __len__. apply map_subseteq_size, map_subseteq_spec.
    intros k watch. rewrite trim_lookup.
    destruct (_watches self !! k) as [w|]; [|done]. by case_decide.
  - split.
    + intros Heq k watch Hk. rewrite <- Heq in Hk. rewrite trim_lookup in Hk.
      destruct (_watches self !! k) as [w|]; [|done].
      case_decide; [done|]. injection Hk as ->. lia.
    + intros Hall. apply state_eq; [|done]. apply map_eq. intros k.
      rewrite trim_lookup. destruct (_watches self !! k) as [w|] eqn:Hk; [|done].
      rewrite decide_False; [done|]. specialize (Hall k w Hk). lia.
Qed.

End watch_table_more.

(** ** The task-event handlers: untracked ids, duplicates, chains *)

Section task_handlers_more.

Import FailureWatcher.

Implicit Types (self : state) (watch : WatchedTask) (event : TaskEvent).

(** X6.  An event for a task that is not tracked changes nothing: neither
    handler touches the table or calls the store, whatever the task's
    result is. *)
Theorem handlers_ignore_untracked_tasks now results event self :
  _watches self !! uuid event = None →
  handle_succeeded_task now results event self = self
  ∧ handle_failed_task event self = self.
Proof.
  intros Hk. split.
  - by rewrite handle_succeeded_task_eq, Hk.
  - rewrite handle_failed_task_eq, Hk, app_nil_r, delete_id by done.
    apply state_eta.
Qed.

Lemma handlers_ignore_untracked_tasks_witness :
  let self := FailureWatcher.add 100 "T" "S" true FailureWatcher.init in
  FailureWatcher.handle_succeeded_task 200 (λ _, FailureWatcher.AsyncResult "V")
    (FailureWatcher.mkTaskEvent "U") self = self
  ∧ FailureWatcher.handle_failed_task (FailureWatcher.mkTaskEvent "U") self = self.
Proof.
  intros self.
  exact (handlers_ignore_untracked_tasks 200 (λ _, AsyncResult "V")
           (mkTaskEvent "U") self eq_refl).
Defined.

(** X7.  The handlers never grow the table: after a task-succeeded or a
    task-failed event it holds at most as many entries as before, and one
    less after a task-failed event for a tracked task. *)
Theorem handlers_never_grow_the_table now results event self :
  (__len__ (handle_succeeded_task now results event self) ≤ __len__ self)%nat
  ∧ (__len__ (handle_failed_task event self) ≤ __len__ self)%nat
  ∧ (is_Some (_watches self !! uuid event) →
     S (__len__ (handle_failed_task event self)) = __len__ self).
Proof.
  assert (∀ m : gmap string WatchedTask, is_Some (m !! uuid event) →
            S (size (delete (uuid event) m)) = size m) as Hdel.
  { intros m [w Hw]. rewrite map_size_delete, Hw. simpl.
    assert (size m ≠ 0%nat) by (apply (map_size_ne_0_lookup_2 m (uuid event)); eauto).
    lia. }
  unfold __len__. split; [|split].
  - rewrite handle_succeeded_task_eq.
    destruct (_watches self !! uuid event) as [watch|] eqn:Hk; [|done].
    specialize (Hdel (_watches self) (ltac:(eauto))).
    destruct (String.eqb (schedule_id watch) ""); cbn [_watches]; [lia|].
    destruct (results (uuid event)) as [child|]; cbn [_watches]; [|lia].
    rewrite map_size_insert.
    destruct (delete (uuid event) (_watches self) !! child); simpl; lia.
  - rewrite handle_failed_task_eq. cbn [_watches]. rewrite map_size_delete.
    destruct (_watches self !! uuid event); simpl; lia.
  - intros Hk. rewrite handle_failed_task_eq. cbn [_watches]. by apply Hdel.
Qed.

Lemma handlers_never_grow_the_table_witness :
  let self := FailureWatcher.add 100 "T" "S" true FailureWatcher.init in
  S (FailureWatcher.__len__
       (FailureWatcher.handle_failed_task (FailureWatcher.mkTaskEvent "T") self))
  = FailureWatcher.__len__ self.
Proof.
  intros self.
  apply (handlers_never_grow_the_table 0 (λ _, Value) (mkTaskEvent "T") self).
  by eexists.
Defined.

(** X8.  An event delivered twice counts once: the second task-failed
    event for a uuid changes nothing, and so does the second
    task-succeeded event unless the task's result refers to the task
    itself. *)
Theorem duplicate_events_count_once now now' results event self :
  handle_failed_task event (handle_failed_task event self)
  = handle_failed_task event self
  ∧ (results (uuid event) ≠ AsyncResult (uuid event) →
     handle_succeeded_task now' results event
       (handle_succeeded_task now results event self)
     = handle_succeeded_task now results event self).
Proof.
  split.
  - rewrite (handle_failed_task_eq event (handle_failed_task event self)).
    rewrite handle_failed_task_eq. cbn [_watches store_calls].
    by rewrite lookup_delete_eq, app_nil_r, delete_delete_eq.
  - intros Hself.
    rewrite (handle_succeeded_task_eq now' results event
               (handle_succeeded_task now results event self)).
    assert (_watches (handle_succeeded_task now results event self) !! uuid event
            = None) as ->; [|done].
    rewrite handle_succeeded_task_eq.
    destruct (_watches self !! uuid event) as [watch|] eqn:Hk; [|done].
    destruct (String.eqb (schedule_id watch) ""); cbn [_watches];
      [apply lookup_delete_eq|].
    destruct (results (uuid event)) as [child|] eqn:Hres; cbn [_watches];
      [|apply lookup_delete_eq].
    rewrite lookup_insert_ne; [apply lookup_delete_eq|]. congruence.
Qed.

Lemma duplicate_events_count_once_witness :
  let self := FailureWatcher.add 100 "T" "S" true FailureWatcher.init in
  let results := λ _ : string, FailureWatcher.Value in
  let event := FailureWatcher.mkTaskEvent "T" in
  FailureWatcher.store_calls
    (FailureWatcher.handle_succeeded_task 300 results event
       (FailureWatcher.handle_succeeded_task 200 results event self))
  = [FailureWatcher.reset_failure_count "S"].
Proof.
  intros self results event.
  rewrite (proj2 (duplicate_events_count_once 200 300 results event self));
    [reflexivity | discriminate].
Defined.

(** X9.  One event makes at most one store call, for the schedule id of
    the watch it removes: a task-succeeded event never increments a
    failure count, a task-failed event never resets one, and neither
    erases a call made before. *)
Theorem handlers_make_at_most_one_store_call now results event self :
  (store_calls (handle_succeeded_task now results event self) = store_calls self
   ∨ ∃ watch, _watches self !! uuid event = Some watch
       ∧ store_calls (handle_succeeded_task now results event self)
         = store_calls self ++ [reset_failure_count (schedule_id watch)])
  ∧ (store_calls (handle_failed_task event self) = store_calls self
     ∨ ∃ watch, _watches self !! uuid event = Some watch
         ∧ store_calls (handle_failed_task event self)
           = store_calls self ++ [increment_failure_count (schedule_id watch)]).
Proof.
  split.
  - rewrite handle_succeeded_task_eq.
    destruct (_watches self !! uuid event) as [watch|]; [|by left].
    destruct (String.eqb (schedule_id watch) ""); [by left|].
    destruct (results (uuid event)); [by left|]. cbn [store_calls].
    destruct (has_failure watch); [right; eauto | left; by rewrite app_nil_r].
  - rewrite handle_failed_task_eq. cbn [store_calls].
    destruct (_watches self !! uuid event) as [watch|];
      [|left; by rewrite app_nil_r].
    destruct (String.eqb (schedule_id watch) "");
      [left; by rewrite app_nil_r | right; eauto].
Qed.

(** X10.  The outcome of a chain is what counts.  When a tracked task (with
    a non-empty schedule id) succeeds with a reference to a child task,
    and the child (a task other than the parent) then fails, the schedule's failure count is incremented exactly once; when
    the child succeeds with a plain result, the count is reset exactly
    when the parent's watch had the flag set.  Both ids are untracked at
    the end. *)
Theorem chained_outcome_counts now results parent child self watch :
  _watches self !! parent = Some watch →
  schedule_id watch ≠ "" →
  results parent = AsyncResult child →
  child ≠ parent →
  let moved := handle_succeeded_task now results (mkTaskEvent parent) self in
  let failed := handle_failed_task (mkTaskEvent child) moved in
  (store_calls failed
   = store_calls self ++ [increment_failure_count (schedule_id watch)]
   ∧ _watches failed = delete child (delete parent (_watches self)))
  ∧ ∀ now', results child = Value →
      let succeeded := handle_succeeded_task now' results (mkTaskEvent child) moved in
      store_calls succeeded
      = store_calls self
        ++ (if has_failure watch then [reset_failure_count (schedule_id watch)] else [])
      ∧ _watches succeeded = delete child (delete parent (_watches self)).
Proof.
  intros Hk Hs Hres Hne moved failed.
  assert (String.eqb (schedule_id watch) "" = false) as Hsb
    by (by apply String.eqb_neq).
  assert (moved = {| _watches :=
                       <[child := mkWatchedTask now (schedule_id watch) (has_failure watch)]>
                         (delete parent (_watches self));
                     store_calls := store_calls self |}) as Hmoved.
  { subst moved. rewrite handle_succeeded_task_eq. cbn [uuid].
    by rewrite Hk, Hsb, Hres. }
  split.
  - subst failed. rewrite handle_failed_task_eq, Hmoved.
    cbn [uuid _watches store_calls schedule_id].
    rewrite lookup_insert_eq. cbn [schedule_id]. rewrite Hsb.
    by rewrite delete_insert_eq.
  - intros now' Hval succeeded. subst succeeded.
    rewrite handle_succeeded_task_eq, Hmoved.
    cbn [uuid _watches store_calls]. rewrite lookup_insert_eq.
    cbn [schedule_id has_failure]. rewrite Hsb, Hval.
    cbn [_watches store_calls]. by rewrite delete_insert_eq.
Qed.

Lemma chained_outcome_counts_witness :
  let self := FailureWatcher.add 100 "T" "S" true FailureWatcher.init in
  let results := λ k : string,
    if String.eqb k "T" then FailureWatcher.AsyncResult "T2" else FailureWatcher.Value in
  let moved :=
    FailureWatcher.handle_succeeded_task 200 results (FailureWatcher.mkTaskEvent "T") self in
  FailureWatcher.store_calls
    (FailureWatcher.handle_failed_task (FailureWatcher.mkTaskEvent "T2") moved)
  = [FailureWatcher.increment_failure_count "S"].
Proof.
  intros self results moved.
  pose proof (chained_outcome_counts 200 results "T" "T2" self
                (mkWatchedTask 100 "S" true) eq_refl) as H.
  destruct H as [[Hcalls _] _]; [discriminate | reflexivity | discriminate |].
  exact Hcalls.
Defined.

End task_handlers_more.

(** ** Worker events and sweeps: discovery, departure, repetition *)

Section workers_more.

Import Resources.

Implicit Types (w : world) (event : WorkerWatcher.Event) (k : string).

Lemma world_eq w1 w2 :
  available_queues w1 = available_queues w2 → submissions w1 = submissions w2 →
  w1 = w2.
Proof. destruct w1, w2. simpl. by intros -> ->. Qed.

Lemma not_resource_manager event :
  (∀ rest, WorkerWatcher.hostname event ≠ "resource_manager@" +:+ rest) →
  WorkerWatcher._is_resource_manager event = false.
Proof.
  intros Hno. destruct (WorkerWatcher._is_resource_manager event) eqn:Hrm; [|done].
  apply _is_resource_manager_iff in Hrm as [rest Hrest]. by destruct (Hno rest).
Qed.

Lemma NoDup_all_equal {A : Type} (a : A) (l : list A) :
  NoDup l → a ∈ l → (∀ x, x ∈ l → x = a) → l = [a].
Proof.
  intros Hnd Hin Hall. destruct l as [|x [|y l]].
  - by apply elem_of_nil in Hin.
  - f_equal. apply Hall. by left.
  - exfalso. apply NoDup_cons in Hnd as [Hx _]. apply Hx.
    rewrite (Hall x) by (by left). rewrite <- (Hall y) by (right; by left). by left.
Qed.

Lemma filter_available_queues_id k (collection : gmap string document) :
  filter_available_queues (filter_id k) collection
  = match collection !! k with
    | Some doc => [from_document (k, doc)]
    | None => []
    end.
Proof.
  unfold filter_available_queues.
  set (l := filter (λ item : string * document, item.1 = k) (map_to_list collection)).
  assert (∀ x, x ∈ l ↔ x.1 = k ∧ collection !! x.1 = Some x.2) as Hl.
  { intros [k' d]. unfold l. rewrite list_elem_of_filter, elem_of_map_to_list. done. }
  destruct (collection !! k) as [doc|] eqn:Hk.
  - rewrite (NoDup_all_equal (k, doc) l); [done | | |].
    + apply NoDup_filter, NoDup_map_to_list.
    + by apply Hl.
    + intros [k' d] [Hk' Hd]%Hl. simpl in *. subst k'. congruence.
  - destruct l as [|[k' d] l']; [done|]. exfalso.
    destruct (proj1 (Hl (k', d))) as [Hk' Hd]; [by left|].
    simpl in *. subst k'. congruence.
Qed.

Lemma handle_worker_heartbeat_eq event w :
  WorkerWatcher.handle_worker_heartbeat event w
  = if WorkerWatcher._is_resource_manager event then w
    else {| available_queues :=
              <[WorkerWatcher.hostname event :=
                  mkDocument (WorkerWatcher.timestamp event)
                    match available_queues w !! WorkerWatcher.hostname event with
                    | Some doc => doc_num_reservations doc
                    | None => 0
                    end]> (available_queues w);
            submissions := submissions w |}.
Proof.
  unfold WorkerWatcher.handle_worker_heartbeat.
  destruct (WorkerWatcher._is_resource_manager event); [done|].
  cbn [WorkerWatcher._parse_and_log_event WorkerWatcher.worker_name
       WorkerWatcher.info_timestamp].
  rewrite filter_available_queues_id.
  by destruct (available_queues w !! WorkerWatcher.hostname event).
Qed.

(** X11.  A heartbeat from a worker that is not a resource manager, with a
    timestamp that [utcfromtimestamp] converts, upserts the worker's row:
    afterwards the worker has a row whose last heartbeat is the event's
    timestamp, with the reservation count it had when the row existed
    already; no other row changes and nothing is submitted. *)
Theorem heartbeat_upserts_the_row event w :
  WorkerWatcher.converts (WorkerWatcher.timestamp event) →
  (∀ rest, WorkerWatcher.hostname event ≠ "resource_manager@" +:+ rest) →
  let w' := WorkerWatcher.handle_worker_heartbeat event w in
  (∃ doc', available_queues w' !! WorkerWatcher.hostname event = Some doc'
     ∧ doc_last_heartbeat doc' = WorkerWatcher.timestamp event
     ∧ ∀ doc, available_queues w !! WorkerWatcher.hostname event = Some doc →
         doc_num_reservations doc' = doc_num_reservations doc)
  ∧ (∀ k, k ≠ WorkerWatcher.hostname event →
       available_queues w' !! k = available_queues w !! k)
  ∧ submissions w' = submissions w.
Proof.
  intros _ Hno w'. subst w'.
  rewrite handle_worker_heartbeat_eq, not_resource_manager by done.
  cbn [available_queues submissions].
  split; [|split; [|done]].
  - eexists. split; [apply lookup_insert_eq|]. split; [done|].
    by intros doc ->.
  - intros k Hk. by apply lookup_insert_ne.
Qed.

Lemma heartbeat_upserts_the_row_witness :
  let w := {| Resources.available_queues := {[ "w1" := Resources.mkDocument 600 2 ]};
              Resources.submissions := [] |} in
  let w' := WorkerWatcher.handle_worker_heartbeat
              (WorkerWatcher.mkEvent 1000 "worker-heartbeat" "w1") w in
  ∃ doc', Resources.available_queues w' !! "w1" = Some doc'
          ∧ Resources.doc_last_heartbeat doc' = 1000
          ∧ Resources.doc_num_reservations doc' = 2.
Proof.
  intros w w'.
  destruct (heartbeat_upserts_the_row
              (WorkerWatcher.mkEvent 1000 "worker-heartbeat" "w1") w)
    as ((doc' & Hrow & Hts & Hres) & _).
  - unfold WorkerWatcher.converts. simpl. lia.
  - intros rest. discriminate.
  - exists doc'. split; [exact Hrow|]. split; [exact Hts|].
    exact (Hres (mkDocument 600 2) eq_refl).
Defined.

(** X12.  The last heartbeat wins: two heartbeats from one worker, with
    timestamps that [utcfromtimestamp] converts, leave the world as the
    second alone does. *)
Theorem last_heartbeat_wins event1 event2 w :
  WorkerWatcher.converts (WorkerWatcher.timestamp event1) →
  WorkerWatcher.converts (WorkerWatcher.timestamp event2) →
  WorkerWatcher.hostname event1 = WorkerWatcher.hostname event2 →
  WorkerWatcher.handle_worker_heartbeat event2
    (WorkerWatcher.handle_worker_heartbeat event1 w)
  = WorkerWatcher.handle_worker_heartbeat event2 w.
Proof.
  intros _ _ Hhost.
  assert (WorkerWatcher._is_resource_manager event1
          = WorkerWatcher._is_resource_manager event2) as Hrm.
  { unfold WorkerWatcher._is_resource_manager. by rewrite Hhost. }
  rewrite (handle_worker_heartbeat_eq event2
             (WorkerWatcher.handle_worker_heartbeat event1 w)).
  rewrite (handle_worker_heartbeat_eq event1 w), (handle_worker_heartbeat_eq event2 w).
  rewrite Hrm. destruct (WorkerWatcher._is_resource_manager event2); [done|].
  cbn [available_queues submissions]. rewrite Hhost.
  rewrite lookup_insert_eq, insert_insert_eq. cbn [doc_num_reservations].
  done.
Qed.

Lemma last_heartbeat_wins_witness :
  let w := {| Resources.available_queues := {[ "w1" := Resources.mkDocument 600 2 ]};
              Resources.submissions := [] |} in
  Resources.available_queues
    (WorkerWatcher.handle_worker_heartbeat (WorkerWatcher.mkEvent 1060 "worker-heartbeat" "w1")
       (WorkerWatcher.handle_worker_heartbeat
          (WorkerWatcher.mkEvent 1000 "worker-heartbeat" "w1") w))
  = {[ "w1" := Resources.mkDocument 1060 2 ]}.
Proof.
  intros w.
  rewrite (last_heartbeat_wins (WorkerWatcher.mkEvent 1000 "worker-heartbeat" "w1")
             (WorkerWatcher.mkEvent 1060 "worker-heartbeat" "w1") w);
    [reflexivity | unfold WorkerWatcher.converts; simpl; lia ..| reflexivity].
Defined.

(** X13.  A worker-offline event whose timestamp [utcfromtimestamp]
    converts is dropped only for a resource manager: the handler leaves
    the world unchanged exactly when the hostname begins with
    [resource_manager@]; for any other hostname it submits one
    [_delete_queue] for that hostname on the [resource_manager] queue and
    leaves the worker's row in the registry. *)
Theorem offline_is_dropped_only_for_resource_managers event w :
  WorkerWatcher.converts (WorkerWatcher.timestamp event) →
  (WorkerWatcher.handle_worker_offline event w = w
   ↔ ∃ rest, WorkerWatcher.hostname event = "resource_manager@" +:+ rest)
  ∧ ((∀ rest, WorkerWatcher.hostname event ≠ "resource_manager@" +:+ rest) →
     WorkerWatcher.handle_worker_offline event w
     = {| available_queues := available_queues w;
          submissions :=
            submissions w
            ++ [mkSubmission _delete_queue [WorkerWatcher.hostname event]
                  "resource_manager"] |}).
Proof.
  intros _. split.
  - rewrite <- _is_resource_manager_iff. unfold WorkerWatcher.handle_worker_offline.
    destruct (WorkerWatcher._is_resource_manager event); [done|].
    split; [|done]. intros Heq. exfalso.
    apply (f_equal (λ w, length (submissions w))) in Heq.
    unfold apply_async in Heq. cbn [submissions] in Heq.
    rewrite length_app in Heq. simpl in Heq. lia.
  - intros Hno. unfold WorkerWatcher.handle_worker_offline.
    by rewrite not_resource_manager.
Qed.

Lemma offline_is_dropped_only_for_resource_managers_witness :
  let w := {| Resources.available_queues := {[ "w1" := Resources.mkDocument 600 2 ]};
              Resources.submissions := [] |} in
  WorkerWatcher.handle_worker_offline (WorkerWatcher.mkEvent 1000 "worker-offline" "w1") w
  = {| Resources.available_queues := {[ "w1" := Resources.mkDocument 600 2 ]};
       Resources.submissions :=
         [Resources.mkSubmission Resources._delete_queue ["w1"] "resource_manager"] |}.
Proof.
  intros w.
  assert (WorkerWatcher.converts 1000) as Hts
    by (unfold WorkerWatcher.converts; lia).
  apply (proj2 (offline_is_dropped_only_for_resource_managers
                  (WorkerWatcher.mkEvent 1000 "worker-offline" "w1") w Hts)).
  intros rest. discriminate.
Defined.

Lemma check_workers_count utcnow w k :
  length (filter (λ s, s = mkSubmission _delete_queue [k] "resource_manager")
            (drop (length (submissions w))
               (submissions (WorkerTimeoutMonitor.check_workers utcnow w))))
  = match available_queues w !! k with
    | Some doc => if decide (doc_last_heartbeat doc < utcnow - 300) then 1%nat else 0%nat
    | None => 0%nat
    end.
Proof.
  rewrite check_workers_eq. cbn [submissions]. rewrite drop_app_length.
  rewrite count_NoDup
    by (apply NoDup_fmap_2; [apply delete_queue_submission_inj | apply NoDup_missing]).
  destruct (available_queues w !! k) as [doc|] eqn:Hk.
  - destruct (decide (doc_last_heartbeat doc < utcnow - 300)) as [Hold|Hnew].
    + rewrite decide_True; [done|]. apply list_elem_of_fmap. exists k.
      split; [done|]. apply elem_of_missing. eauto.
    + rewrite decide_False; [done|].
      intros (k' & Heq%delete_queue_submission_inj & Hin)%list_elem_of_fmap.
      subst k'. apply elem_of_missing in Hin as (doc' & Hk' & Hold). simplify_eq. lia.
  - rewrite decide_False; [done|].
    intros (k' & Heq%delete_queue_submission_inj & Hin)%list_elem_of_fmap.
    subst k'. apply elem_of_missing in Hin as (doc' & Hk' & Hold). congruence.
Qed.

(** X14.  A heartbeat keeps a worker from the sweep for 300 seconds: after
    a heartbeat with a timestamp [t] that [utcfromtimestamp] converts,
    from a worker that is not a resource manager, a sweep at [utcnow]
    submits a cleanup for that worker exactly when [t < utcnow - 300],
    whatever the row held before. *)
Theorem heartbeat_defers_the_sweep event utcnow w :
  WorkerWatcher.converts (WorkerWatcher.timestamp event) →
  (∀ rest, WorkerWatcher.hostname event ≠ "resource_manager@" +:+ rest) →
  let w' := WorkerTimeoutMonitor.check_workers utcnow
              (WorkerWatcher.handle_worker_heartbeat event w) in
  length (filter (λ s, s = mkSubmission _delete_queue [WorkerWatcher.hostname event]
                               "resource_manager")
            (drop (length (submissions w)) (submissions w')))
  = if decide (WorkerWatcher.timestamp event < utcnow - 300) then 1%nat else 0%nat.
Proof.
  intros _ Hno w'. subst w'.
  pose proof (check_workers_count utcnow
                (WorkerWatcher.handle_worker_heartbeat event w)
                (WorkerWatcher.hostname event)) as Hcount.
  rewrite handle_worker_heartbeat_eq, not_resource_manager in Hcount |- * by done.
  cbn [submissions available_queues] in Hcount. rewrite Hcount.
  by rewrite lookup_insert_eq.
Qed.

Lemma heartbeat_defers_the_sweep_witness :
  let w := {| Resources.available_queues := {[ "w1" := Resources.mkDocument 100 2 ]};
              Resources.submissions := [] |} in
  let event := WorkerWatcher.mkEvent 1000 "worker-heartbeat" "w1" in
  length (filter (λ s, s = Resources.mkSubmission Resources._delete_queue ["w1"]
                               "resource_manager")
            (drop (length (Resources.submissions w))
               (Resources.submissions
                  (WorkerTimeoutMonitor.check_workers 1200
                     (WorkerWatcher.handle_worker_heartbeat event w)))))
  = 0%nat.
Proof.
  intros w event.
  apply (heartbeat_defers_the_sweep event 1200 w).
  - unfold WorkerWatcher.converts. simpl. lia.
  - intros rest. discriminate.
Defined.

(** X15.  A sweep that finds no row older than the cutoff changes nothing,
    and only such a sweep does: [check_workers] returns the world as it
    was exactly when every row's last heartbeat is at or after
    [utcnow - 300] (an empty registry included). *)
Theorem sweep_is_silent_iff_no_worker_is_missing utcnow w :
  WorkerTimeoutMonitor.check_workers utcnow w = w
  ↔ ∀ k doc, available_queues w !! k = Some doc → utcnow - 300 ≤ doc_last_heartbeat doc.
Proof.
  rewrite check_workers_eq.
  set (ids := (filter _ (map_to_list (available_queues w))).*1).
  split.
  - intros Heq k doc Hk.
    destruct (decide (doc_last_heartbeat doc < utcnow - 300)) as [Hold|]; [|lia].
    assert (k ∈ ids) as Hin by (apply elem_of_missing; eauto).
    apply (f_equal (λ w, length (submissions w))) in Heq.
    cbn [submissions] in Heq. rewrite length_app, length_fmap in Heq.
    destruct ids; [by apply elem_of_nil in Hin | simpl in Heq; lia].
  - intros Hall. assert (ids = []) as ->.
    { destruct ids as [|k ids'] eqn:Hids; [done|]. exfalso.
      assert (k ∈ ids) as (doc & Hk & Hold)%elem_of_missing
        by (rewrite Hids; by left).
      specialize (Hall k doc Hk). lia. }
    simpl. rewrite app_nil_r. by destruct w.
Qed.

Lemma run_eq clock w :
  available_queues (WorkerTimeoutMonitor.run clock w) = available_queues w
  ∧ ∃ new, submissions (WorkerTimeoutMonitor.run clock w) = submissions w ++ new
      ∧ ∀ k, length (filter (λ s, s = mkSubmission _delete_queue [k] "resource_manager") new)
             = match available_queues w !! k with
               | Some doc =>
                   length (filter (λ utcnow, doc_last_heartbeat doc < utcnow - 300) clock)
               | None => 0%nat
               end.
Proof.
  revert w. induction clock as [|utcnow clock IH]; intros w.
  - split; [done|]. exists []. split; [by rewrite app_nil_r|].
    intros k. by destruct (available_queues w !! k).
  - unfold WorkerTimeoutMonitor.run in *. cbn [foldl].
    destruct (IH (WorkerTimeoutMonitor.check_workers utcnow w)) as (Haq & new & Hsub & Hcount).
    pose proof (check_workers_eq utcnow w) as Hcw.
    assert (available_queues (WorkerTimeoutMonitor.check_workers utcnow w)
            = available_queues w) as Haq1 by (by rewrite Hcw).
    split; [by rewrite Haq|].
    exists (drop (length (submissions w))
              (submissions (WorkerTimeoutMonitor.check_workers utcnow w)) ++ new).
    split.
    + rewrite Hsub. rewrite Hcw at 1. cbn [submissions]. rewrite Hcw.
      cbn [submissions]. by rewrite drop_app_length, app_assoc.
    + intros k. rewrite filter_app, length_app, check_workers_count, Hcount, Haq1.
      destruct (available_queues w !! k) as [doc|]; [|done].
      rewrite filter_cons. by destruct (decide (doc_last_heartbeat doc < utcnow - 300)).
Qed.

(** X16.  The sweep reports and does not remove: over any number of
    iterations of [run] the registry stays as it was, the tasks submitted
    before stay in place, and a row gets one more [_delete_queue]
    submission at each sweep whose cutoff its last heartbeat is before;
    a name without a row gets none. *)
Theorem run_reports_at_every_sweep clock w :
  let w' := WorkerTimeoutMonitor.run clock w in
  let new := drop (length (submissions w)) (submissions w') in
  available_queues w' = available_queues w
  ∧ submissions w' = submissions w ++ new
  ∧ ∀ k, length (filter (λ s, s = mkSubmission _delete_queue [k] "resource_manager") new)
         = match available_queues w !! k with
           | Some doc =>
               length (filter (λ utcnow, doc_last_heartbeat doc < utcnow - 300) clock)
           | None => 0%nat
           end.
Proof.
  intros w' new. subst w' new.
  destruct (run_eq clock w) as (Haq & new & Hsub & Hcount).
  rewrite Hsub, drop_app_length. done.
Qed.

End workers_more.

(** ** The schedule cache: first read, cache hits, change detection *)

Section schedule_cache_more.

Import Scheduler.

Implicit Types (conf : gmap string (gmap string string)) (store : Store).
Implicit Types (self : state) (call : ScheduledCall) (calls : list ScheduledCall).

Lemma schedule_changed_is_set store self timestamp :
  _most_recent_timestamp self = Some timestamp →
  schedule_changed store self
  = if bool_decide (Z.of_nat (length (get_enabled store)) ≠ _loaded_from_db_count self)
    then (Some true, ask count_enabled self)
    else (Some (bool_decide (get_updated_since store timestamp ≠ [])),
          ask (count_updated_since timestamp) (ask count_enabled self)).
Proof.
  intros Hts. unfold schedule_changed. cbn [ask _loaded_from_db_count
    _most_recent_timestamp]. rewrite Hts.
  destruct (bool_decide (Z.of_nat (length (get_enabled store))
                         ≠ _loaded_from_db_count self)); [done|].
  by destruct (get_updated_since store timestamp) as [|c l].
Qed.

(** X18.  Read directly on a scheduler on which [setup_schedule] has not
    run, [schedule_changed] is true when the store holds an enabled call
    and raises otherwise ([_most_recent_timestamp] is not set yet); the
    first read of [schedule] does not ask it: it loads the store, once. *)
Theorem first_read_loads_without_asking conf store :
  (schedule_changed store init).1
  = (if decide (get_enabled store = []) then None else Some true)
  ∧ schedule conf store init
    = (_schedule (setup_schedule conf store init), setup_schedule conf store init)
  ∧ queries (schedule conf store init).2 = [load_enabled].
Proof.
  split; [|done]. unfold schedule_changed. cbn [ask init _loaded_from_db_count
    _most_recent_timestamp].
  by destruct (get_enabled store) as [|c l].
Qed.

(** X19.  After a load, [schedule_changed] does not raise and is true
    exactly when the number of enabled calls of the store it then sees
    differs from the number of calls it loaded, or some call was updated
    since the latest [last_updated] it loaded. *)
Theorem schedule_changed_after_a_load conf store store' self :
  let self' := setup_schedule conf store self in
  let latest := default 0%N (_most_recent_timestamp self') in
  (schedule_changed store' self').1
  = Some (bool_decide
            (length (get_enabled store') ≠ length (filter runs_left (get_enabled store))
             ∨ get_updated_since store' latest ≠ [])).
Proof.
  intros self' latest. subst self' latest. rewrite setup_schedule_eq.
  cbn [_most_recent_timestamp default from_option].
  erewrite schedule_changed_is_set by reflexivity. cbn [_loaded_from_db_count].
  destruct (decide (length (get_enabled store')
                    = length (filter runs_left (get_enabled store)))) as [Heq|Hne].
  - rewrite bool_decide_eq_false_2 by lia. cbn [fst]. f_equal.
    apply bool_decide_ext. split; [by right | by intros [|]].
  - rewrite bool_decide_eq_true_2 by lia. cbn [fst].
    by rewrite bool_decide_eq_true_2 by (by left).
Qed.

(** X20.  A cache hit: when every enabled call has runs left and no call
    was updated since the load, a read of [schedule] returns the loaded
    snapshot without loading again; it only asks the store its two
    counts. *)
Theorem schedule_is_cached conf store self :
  (∀ call, call ∈ get_enabled store → remaining_runs call ≠ Some 0%N) →
  let self' := setup_schedule conf store self in
  (∀ timestamp, _most_recent_timestamp self' = Some timestamp →
     get_updated_since store timestamp = []) →
  (schedule conf store self').1 = _schedule self'
  ∧ loads (schedule conf store self').2 = loads self'
  ∧ ∃ timestamp,
      queries (schedule conf store self').2
      = queries self' ++ [count_enabled; count_updated_since timestamp].
Proof.
  intros Hall self' Hnone.
  assert (filter runs_left (get_enabled store) = get_enabled store) as Hfilter.
  { induction (get_enabled store) as [|c l IH]; [done|].
    rewrite filter_cons_True by (apply Hall; by left).
    f_equal. apply IH. intros call ?. apply Hall. by right. }
  subst self'. rewrite setup_schedule_eq in Hnone |- *.
  cbn [_most_recent_timestamp] in Hnone.
  unfold schedule. cbn [_schedule].
  erewrite schedule_changed_is_set by reflexivity. cbn [_loaded_from_db_count].
  rewrite Hfilter in Hnone |- *.
  rewrite bool_decide_eq_false_2 by (intros H; by apply H).
  rewrite (Hnone _ eq_refl), bool_decide_eq_false_2 by (intros H; by apply H).
  cbn [fst snd ask _schedule queries]. split; [done|]. split.
  - unfold loads. cbn [queries ask]. rewrite !filter_app, !length_app. simpl. lia.
  - eexists. by rewrite <- (app_assoc _ [count_enabled]).
Qed.

Lemma schedule_is_cached_witness :
  let endless := Scheduler.mkScheduledCall "b" None 5%N (Some 3%N) 1%N in
  let store := Scheduler.mkStore [endless] (λ _, []) in
  let self' := Scheduler.setup_schedule ∅ store Scheduler.init in
  Scheduler.loads (Scheduler.schedule ∅ store self').2 = 1%nat.
Proof.
  intros endless store self'.
  pose proof (schedule_is_cached ∅ store Scheduler.init) as H.
  destruct H as (_ & Hloads & _).
  - intros call [->|[]%elem_of_nil]%elem_of_cons. discriminate.
  - reflexivity.
  - exact Hloads.
Defined.

(** X21.  [setup_schedule] rebuilds from scratch: the snapshot, the count
    and the timestamp it sets depend on the configuration and the store
    only, not on what the scheduler held before; a key that is neither
    configured nor the id of an enabled call with runs left is absent
    from the snapshot. *)
Theorem setup_schedule_rebuilds_from_scratch conf store self1 self2 :
  _schedule (setup_schedule conf store self1) = _schedule (setup_schedule conf store self2)
  ∧ _loaded_from_db_count (setup_schedule conf store self1)
    = _loaded_from_db_count (setup_schedule conf store self2)
  ∧ _most_recent_timestamp (setup_schedule conf store self1)
    = _most_recent_timestamp (setup_schedule conf store self2)
  ∧ ∀ k, conf !! k = None →
         k ∉ id <$> filter runs_left (get_enabled store) →
         default ∅ (_schedule (setup_schedule conf store self1)) !! k = None.
Proof.
  rewrite !setup_schedule_eq. cbn [_schedule _loaded_from_db_count
    _most_recent_timestamp default from_option Datatypes.id].
  split; [done|]. split; [done|]. split; [done|].
  intros k Hconf Hk. rewrite foldl_insert_calls_lookup_ne by done.
  by rewrite from_app_lookup, Hconf.
Qed.

Lemma setup_schedule_rebuilds_from_scratch_witness :
  let spent := Scheduler.mkScheduledCall "a" (Some 0%N) 9%N None 0%N in
  let endless := Scheduler.mkScheduledCall "b" None 5%N (Some 3%N) 1%N in
  let before := Scheduler.mkStore [spent; endless] (λ _, []) in
  let after := Scheduler.mkStore [spent] (λ _, []) in
  default ∅ (Scheduler._schedule
               (Scheduler.setup_schedule ∅ after
                  (Scheduler.setup_schedule ∅ before Scheduler.init))) !! "b" = None.
Proof.
  intros spent endless before after.
  apply (setup_schedule_rebuilds_from_scratch ∅ after
           (Scheduler.setup_schedule ∅ before Scheduler.init) Scheduler.init).
  - reflexivity.
  - intros []%elem_of_nil.
Defined.

Lemma foldl_insert_calls_lookup_in calls (schedule : gmap string Entry) k :
  k ∈ id <$> calls →
  ∃ call, call ∈ calls ∧ id call = k
    ∧ foldl (λ schedule call, <[id call := ScheduleEntry call]> schedule) schedule calls
        !! k = Some (ScheduleEntry call).
Proof.
  revert schedule. induction calls as [|c calls IH]; intros schedule Hin.
  - by apply elem_of_nil in Hin.
  - cbn [foldl]. destruct (decide (k ∈ id <$> calls)) as [Hrest|Hrest].
    + destruct (IH (<[id c := ScheduleEntry c]> schedule) Hrest) as (call & ? & ? & ?).
      exists call. split; [by right | done].
    + rewrite fmap_cons in Hin. apply elem_of_cons in Hin as [->|]; [|done].
      exists c. split; [by left|]. split; [done|].
      rewrite foldl_insert_calls_lookup_ne by done. apply lookup_insert_eq.
Qed.

(** X22.  A configured entry is named by its key and yields to the store:
    the key of [CELERYBEAT_SCHEDULE] holds a [beat.ScheduleEntry] whose
    [name] argument is the key, any [name] in the configured value
    overridden, unless an enabled call with runs left has that key as its
    id, in which case the key holds that call's entry. *)
Theorem configured_entries_yield_to_the_store conf store self k value :
  conf !! k = Some value →
  let schedule := default ∅ (_schedule (setup_schedule conf store self)) in
  let inserted := filter runs_left (get_enabled store) in
  (k ∉ id <$> inserted →
   schedule !! k = Some (beat_ScheduleEntry (<["name" := k]> value)))
  ∧ (k ∈ id <$> inserted →
     ∃ call, call ∈ inserted ∧ id call = k
       ∧ schedule !! k = Some (ScheduleEntry call)).
Proof.
  intros Hconf schedule inserted. subst schedule inserted.
  rewrite setup_schedule_eq. cbn [_schedule default from_option Datatypes.id]. split.
  - intros Hk. rewrite foldl_insert_calls_lookup_ne by done.
    by rewrite from_app_lookup, Hconf.
  - apply foldl_insert_calls_lookup_in.
Qed.

Lemma configured_entries_yield_to_the_store_witness :
  let conf : gmap string (gmap string string) :=
    {[ "nightly" := {[ "task" := "sync"; "name" := "other" ]} ]} in
  let store := Scheduler.mkStore [] (λ _, []) in
  default ∅ (Scheduler._schedule (Scheduler.setup_schedule conf store Scheduler.init))
    !! "nightly"
  = Some (Scheduler.beat_ScheduleEntry {[ "task" := "sync"; "name" := "nightly" ]}).
Proof.
  intros conf store.
  rewrite (proj1 (configured_entries_yield_to_the_store conf store Scheduler.init
                    "nightly" {[ "task" := "sync"; "name" := "other" ]} eq_refl)).
  - reflexivity.
  - intros []%elem_of_nil.
Defined.

(** X23.  From dispatch to outcome.  An entry whose call has a non-zero
    failure threshold (and a non-empty id) is watched when dispatched: if
    its task then fails, the call's failure count is incremented exactly
    once; if it succeeds with a plain result, the count is reset exactly
    when the call had failures on record at dispatch.  The table is then
    as before the dispatch, without the task's id. *)
Theorem dispatch_then_outcome now call threshold result_id
    (watcher : FailureWatcher.state) :
  failure_threshold call = Some threshold →
  threshold ≠ 0%N →
  id call ≠ "" →
  let watched := apply_async now (as_schedule_entry call) result_id watcher in
  let event := FailureWatcher.mkTaskEvent result_id in
  (FailureWatcher.store_calls (FailureWatcher.handle_failed_task event watched)
   = FailureWatcher.store_calls watcher
     ++ [FailureWatcher.increment_failure_count (id call)]
   ∧ FailureWatcher._watches (FailureWatcher.handle_failed_task event watched)
     = delete result_id (FailureWatcher._watches watcher))
  ∧ ∀ now' results, results result_id = FailureWatcher.Value →
      FailureWatcher.store_calls
        (FailureWatcher.handle_succeeded_task now' results event watched)
      = FailureWatcher.store_calls watcher
        ++ (if (consecutive_failures call =? 0)%N then []
            else [FailureWatcher.reset_failure_count (id call)])
      ∧ FailureWatcher._watches
          (FailureWatcher.handle_succeeded_task now' results event watched)
        = delete result_id (FailureWatcher._watches watcher).
Proof.
  intros Hth Hnz Hid watched event.
  assert (String.eqb (id call) "" = false) as Hsb by (by apply String.eqb_neq).
  assert (watched = FailureWatcher.add now result_id (id call)
                      (negb (consecutive_failures call =? 0)%N) watcher) as ->.
  { subst watched. unfold apply_async, as_schedule_entry. rewrite Hth. simpl.
    by destruct (N.eqb_spec threshold 0). }
  subst event. split.
  - rewrite handle_failed_task_eq.
    cbn [FailureWatcher.uuid FailureWatcher._watches FailureWatcher.store_calls
         FailureWatcher.add]. unfold FailureWatcher.add_watch.
    rewrite lookup_insert_eq. cbn [FailureWatcher.schedule_id]. rewrite Hsb.
    by rewrite delete_insert_eq.
  - intros now' results Hval. rewrite handle_succeeded_task_eq.
    cbn [FailureWatcher.uuid FailureWatcher._watches FailureWatcher.store_calls
         FailureWatcher.add]. unfold FailureWatcher.add_watch.
    rewrite lookup_insert_eq. cbn [FailureWatcher.schedule_id FailureWatcher.has_failure].
    rewrite Hsb, Hval. cbn [FailureWatcher._watches FailureWatcher.store_calls].
    rewrite delete_insert_eq. by destruct (consecutive_failures call =? 0)%N.
Qed.

Lemma dispatch_then_outcome_witness :
  let call := Scheduler.mkScheduledCall "S" None 5%N (Some 3%N) 1%N in
  let watched :=
    Scheduler.apply_async 100 (Scheduler.as_schedule_entry call) "T" FailureWatcher.init in
  FailureWatcher.store_calls
    (FailureWatcher.handle_failed_task (FailureWatcher.mkTaskEvent "T") watched)
  = [FailureWatcher.increment_failure_count "S"].
Proof.
  intros call watched.
  pose proof (dispatch_then_outcome 100 call 3%N "T" FailureWatcher.init eq_refl) as H.
  destruct H as [[Hcalls _] _]; [discriminate | discriminate |].
  exact Hcalls.
Defined.

(** X24.  What is dispatched without a threshold is never counted: an
    entry from the configuration, or one whose call has no failure
    threshold or a threshold of [0], leaves the failure watcher as it is,
    so a later task-failed or task-succeeded event for the dispatched task
    (its id not tracked otherwise) changes nothing. *)
Theorem dispatch_without_threshold_is_not_watched now entry result_id
    (watcher : FailureWatcher.state) :
  match entry with
  | beat_ScheduleEntry _ => True
  | ScheduleEntry call =>
      failure_threshold call = None ∨ failure_threshold call = Some 0%N
  end →
  apply_async now entry result_id watcher = watcher
  ∧ (FailureWatcher._watches watcher !! result_id = None →
     ∀ now' results,
       FailureWatcher.handle_failed_task (FailureWatcher.mkTaskEvent result_id)
         (apply_async now entry result_id watcher) = watcher
       ∧ FailureWatcher.handle_succeeded_task now' results
           (FailureWatcher.mkTaskEvent result_id)
           (apply_async now entry result_id watcher) = watcher).
Proof.
  intros Hentry.
  assert (apply_async now entry result_id watcher = watcher) as ->.
  { destruct entry as [kwargs|call]; [done|]. unfold apply_async.
    by destruct Hentry as [->| ->]. }
  split; [done|]. intros Hk now' results.
  rewrite handle_failed_task_eq, handle_succeeded_task_eq.
  cbn [FailureWatcher.uuid]. rewrite Hk, app_nil_r, delete_id by done.
  split; [apply state_eta | done].
Qed.

Lemma dispatch_without_threshold_is_not_watched_witness :
  let call := Scheduler.mkScheduledCall "S" None 5%N (Some 0%N) 1%N in
  Scheduler.apply_async 100 (Scheduler.as_schedule_entry call) "T" FailureWatcher.init
  = FailureWatcher.init.
Proof.
  intros call.
  exact (proj1 (dispatch_without_threshold_is_not_watched 100
                  (Scheduler.as_schedule_entry call) "T" FailureWatcher.init
                  (or_intror eq_refl))).
Defined.

End schedule_cache_more.
